(** * generate_system_map.py: a shallow embedding and its properties

    The script reads a list of [owner/repo] lines, queries the GitHub GraphQL
    API in batches, normalises every repository node into a record, mines the
    README and OpenAPI text with regular expressions and writes one JSON
    document.  This file embeds the pure parts as functions, the HTTP client
    as state passing over a [World] (clock, pending replies, sleep log), and
    proves the properties stated about them.

    Text is [string]: a Python [str] restricted to the code points
    U+0000..U+00FF, one [ascii] per code point.  Character classes follow
    CPython on that range ([str.isspace], the [\w] and [\s] of [re]). *)

From Stdlib Require Import ZArith Ascii String DecimalString.
From stdpp Require Import gmap strings list sorting.

(** ** Characters *)

Definition code (c : ascii) : N := N_of_ascii c.

Definition in_range (lo hi : N) (c : ascii) : bool :=
  ((lo <=? code c) && (code c <=? hi))%N.

(** [str.isspace] and the regex class [\s]. *)
Definition is_space (c : ascii) : bool :=
  in_range 9 13 c || in_range 28 32 c || (code c =? 133)%N || (code c =? 160)%N.

Definition is_upper_az (c : ascii) : bool := in_range 65 90 c.
Definition is_lower_az (c : ascii) : bool := in_range 97 122 c.
Definition is_digit (c : ascii) : bool := in_range 48 57 c.

(** Alphanumeric code points of U+0080..U+00FF ([str.isalnum]). *)
Definition is_latin1_alnum (c : ascii) : bool :=
  (code c =? 170)%N || (code c =? 178)%N || (code c =? 179)%N
  || (code c =? 181)%N || (code c =? 185)%N || (code c =? 186)%N
  || in_range 188 190 c || in_range 192 214 c || in_range 216 246 c
  || in_range 248 255 c.

(** The regex class [\w]. *)
Definition is_word (c : ascii) : bool :=
  is_upper_az c || is_lower_az c || is_digit c || (code c =? 95)%N
  || is_latin1_alnum c.

Definition lower_char (c : ascii) : ascii :=
  if is_upper_az c || (in_range 192 222 c && negb (code c =? 215)%N)
  then ascii_of_N (code c + 32) else c.

(** [str.upper] on the ASCII letters; the script only applies it to a matched
    HTTP method keyword. *)
Definition upper_char (c : ascii) : ascii :=
  if is_lower_az c then ascii_of_N (code c - 32) else c.

(** ** Python string operations *)

Fixpoint smap (f : ascii -> ascii) (s : string) : string :=
  match s with
  | EmptyString => EmptyString
  | String c s' => String (f c) (smap f s')
  end.

Definition lower (s : string) : string := smap lower_char s.
Definition upper (s : string) : string := smap upper_char s.

(** [s.replace(a, b)] for one-character [a] and [b]. *)
Definition replace_char (a b : ascii) (s : string) : string :=
  smap (fun c => if Ascii.eqb c a then b else c) s.

Fixpoint sdrop (n : nat) (s : string) : string :=
  match n, s with
  | O, _ => s
  | S n', String _ s' => sdrop n' s'
  | S _, EmptyString => EmptyString
  end.

Fixpoint stake (n : nat) (s : string) : string :=
  match n, s with
  | S n', String c s' => String c (stake n' s')
  | _, _ => EmptyString
  end.

(** [s[a:b]] for [0 <= a] and [0 <= b]. *)
Definition slice (a b : nat) (s : string) : string := stake (b - a) (sdrop a s).

Definition startswith (p s : string) : bool := String.prefix p s.

Definition endswith (suf s : string) : bool :=
  (String.length suf <=? String.length s)%nat
  && String.eqb (sdrop (String.length s - String.length suf) s) suf.

(** [needle in hay]. *)
Fixpoint contains (needle hay : string) : bool :=
  String.prefix needle hay
  || match hay with
     | EmptyString => false
     | String _ hay' => contains needle hay'
     end.

(** [hay.find(needle)]: [None] stands for -1. *)
Fixpoint find (needle hay : string) : option nat :=
  if String.prefix needle hay then Some O
  else match hay with
       | EmptyString => None
       | String _ hay' => S <$> find needle hay'
       end.

Fixpoint lstrip_by (p : ascii -> bool) (s : string) : string :=
  match s with
  | String c s' => if p c then lstrip_by p s' else s
  | EmptyString => EmptyString
  end.

Fixpoint rstrip_by (p : ascii -> bool) (s : string) : string :=
  match s with
  | EmptyString => EmptyString
  | String c s' =>
      match rstrip_by p s' with
      | EmptyString => if p c then EmptyString else String c EmptyString
      | r => String c r
      end
  end.

(** [s.strip()] *)
Definition strip (s : string) : string := rstrip_by is_space (lstrip_by is_space s).

(** [s.split(sep, 1)] for a one-character [sep] that occurs in [s]: the text
    before the first [sep] and the text after it. *)
Fixpoint split_once (sep : ascii) (s : string) : option (string * string) :=
  match s with
  | EmptyString => None
  | String c s' =>
      if Ascii.eqb c sep then Some (EmptyString, s')
      else match split_once sep s' with
           | Some (a, b) => Some (String c a, b)
           | None => None
           end
  end.

(** Truthiness of an optional string: [None] and [""] are falsy. *)
Definition truthy (s : option string) : bool :=
  match s with
  | Some (String _ _) => true
  | _ => false
  end.

Definition nat_to_string (n : nat) : string :=
  NilZero.string_of_uint (Nat.to_uint n).

Definition Z_to_string (z : Z) : string :=
  NilZero.string_of_int (Z.to_int z).

(** [int(s)] in base 10: blanks around, an optional sign, then digits with
    single underscores between them; [None] stands for [ValueError].  (The
    blanks [int] accepts are not all of [str.isspace]; the cap CPython puts on
    the number of digits is left out.) *)
Definition is_int_space (c : ascii) : bool :=
  in_range 9 13 c || (code c =? 32)%N || (code c =? 133)%N || (code c =? 160)%N.

Fixpoint digits_value (acc : Z) (after_digit : bool) (s : string) : option Z :=
  match s with
  | EmptyString => if after_digit then Some acc else None
  | String c s' =>
      if is_digit c
      then digits_value (10 * acc + (Z.of_N (code c) - 48))%Z true s'
      else if Ascii.eqb c "_" && after_digit then digits_value acc false s'
      else None
  end.

Definition py_int (s : string) : option Z :=
  match rstrip_by is_int_space (lstrip_by is_int_space s) with
  | String "-" ds => Z.opp <$> digits_value 0 false ds
  | String "+" ds => digits_value 0 false ds
  | ds => digits_value 0 false ds
  end.

(** ** Regular expressions

    The three patterns of the script use character classes, greedy bounded
    repetition of a class, an alternation of literals, the anchors [\b], [^]
    and [$] (both under [(?m)]) and capturing groups.  A pattern is a sequence
    of such items; matching is backtracking, leftmost, greedy, as in [re]. *)

Inductive item : Type :=
  | Cls (p : ascii -> bool)
  | Rep (p : ascii -> bool) (lo : nat) (hi : option nat)
  | Alt (words : list string)
  | WordB
  | Bol
  | Eol
  | Open
  | Close.

(** A match in progress: the text consumed so far (reversed), the groups
    closed so far, and the text of the group that is open (reversed). *)
Record mstate : Type := MState {
  consumed : list ascii;
  groups : list string;
  cur : option (list ascii)
}.

Definition mstart : mstate := MState [] [] None.

Definition push (c : ascii) (st : mstate) : mstate :=
  MState (c :: consumed st) (groups st) (cons c <$> cur st).

Definition open_group (st : mstate) : mstate :=
  MState (consumed st) (groups st) (Some []).

Definition close_group (st : mstate) : mstate :=
  MState (consumed st)
         (groups st ++ [string_of_list_ascii (rev (default [] (cur st)))])
         None.

Definition word_at (c : option ascii) : bool :=
  match c with
  | Some a => is_word a
  | None => false
  end.

Definition at_word_boundary (prev : option ascii) (rest : list ascii) : bool :=
  xorb (word_at prev) (word_at (head rest)).

Definition at_bol (prev : option ascii) : bool :=
  match prev with
  | None => true
  | Some c => Ascii.eqb c "010"
  end.

Definition at_eol (rest : list ascii) : bool :=
  match rest with
  | [] => true
  | c :: _ => Ascii.eqb c "010"
  end.

Definition hi_pred (hi : option nat) : option (option nat) :=
  match hi with
  | None => Some None
  | Some O => None
  | Some (S h) => Some (Some h)
  end.

(** Greedy repetition: take one more character of the class when allowed, and
    fall back to stopping here when the rest of the pattern fails. *)
Fixpoint greedy {R : Type} (p : ascii -> bool) (lo : nat) (hi : option nat)
    (k : option ascii -> list ascii -> mstate -> option R)
    (prev : option ascii) (rest : list ascii) (st : mstate) : option R :=
  let stop := match lo with O => k prev rest st | S _ => None end in
  match rest, hi_pred hi with
  | c :: rest', Some hi' =>
      if p c then
        match greedy p (Nat.pred lo) hi' k (Some c) rest' (push c st) with
        | Some r => Some r
        | None => stop
        end
      else stop
  | _, _ => stop
  end.

(** A literal: every character must be next in the text. *)
Fixpoint literal {R : Type} (w : list ascii)
    (k : option ascii -> list ascii -> mstate -> option R)
    (prev : option ascii) (rest : list ascii) (st : mstate) : option R :=
  match w with
  | [] => k prev rest st
  | a :: w' =>
      match rest with
      | c :: rest' =>
          if Ascii.eqb a c then literal w' k (Some c) rest' (push c st) else None
      | [] => None
      end
  end.

Fixpoint alternatives {R : Type} (ws : list string)
    (k : option ascii -> list ascii -> mstate -> option R)
    (prev : option ascii) (rest : list ascii) (st : mstate) : option R :=
  match ws with
  | [] => None
  | w :: ws' =>
      match literal (list_ascii_of_string w) k prev rest st with
      | Some r => Some r
      | None => alternatives ws' k prev rest st
      end
  end.

Fixpoint mseq (pat : list item) (prev : option ascii) (rest : list ascii)
    (st : mstate) : option mstate :=
  match pat with
  | [] => Some st
  | it :: pat' =>
      match it with
      | Cls p =>
          match rest with
          | c :: rest' => if p c then mseq pat' (Some c) rest' (push c st) else None
          | [] => None
          end
      | Rep p lo hi => greedy p lo hi (mseq pat') prev rest st
      | Alt ws => alternatives ws (mseq pat') prev rest st
      | WordB => if at_word_boundary prev rest then mseq pat' prev rest st else None
      | Bol => if at_bol prev then mseq pat' prev rest st else None
      | Eol => if at_eol rest then mseq pat' prev rest st else None
      | Open => mseq pat' prev rest (open_group st)
      | Close => mseq pat' prev rest (close_group st)
      end
  end.

(** A match object: [group(0)] and the numbered groups. *)
Record rmatch : Type := RMatch {
  whole : string;
  captured : list string
}.

Definition group (n : nat) (m : rmatch) : string :=
  match n with
  | O => whole m
  | S i => default EmptyString (captured m !! i)
  end.

Definition match_at (pat : list item) (prev : option ascii) (rest : list ascii)
    : option (nat * rmatch) :=
  match mseq pat prev rest mstart with
  | Some st =>
      Some (length (consumed st),
            RMatch (string_of_list_ascii (rev (consumed st))) (groups st))
  | None => None
  end.

(** [re.finditer]: scan left to right; after a match the scan resumes at its
    end ([skip] counts the characters of the match still to step over).  None
    of the patterns below matches the empty string. *)
Fixpoint scan (pat : list item) (prev : option ascii) (rest : list ascii)
    (skip : nat) : list rmatch :=
  match skip with
  | S k =>
      match rest with
      | c :: rest' => scan pat (Some c) rest' k
      | [] => []
      end
  | O =>
      match match_at pat prev rest with
      | Some (n, m) =>
          m :: match rest with
               | c :: rest' => scan pat (Some c) rest' (Nat.pred n)
               | [] => []
               end
      | None =>
          match rest with
          | c :: rest' => scan pat (Some c) rest' O
          | [] => []
          end
      end
  end.

Definition finditer (pat : list item) (text : string) : list rmatch :=
  scan pat None (list_ascii_of_string text) O.

(** [re.findall] for a pattern without groups. *)
Definition findall (pat : list item) (text : string) : list string :=
  whole <$> finditer pat text.

Definition is_char (a : ascii) (c : ascii) : bool := Ascii.eqb c a.

(** ** Data model *)

Record RepoSpec : Type := MkRepoSpec {
  owner : string;
  repo : string
}.

Definition full_name (spec : RepoSpec) : string :=
  owner spec +:+ "/" +:+ repo spec.

Definition HTTP_METHODS : list string :=
  ["GET"; "POST"; "PUT"; "PATCH"; "DELETE"; "OPTIONS"; "HEAD"].

Record Evidence : Type := MkEvidence {
  ev_path : option string;
  ev_snippet : option string
}.

Record EnvVar : Type := MkEnvVar {
  env_name : string;
  env_confidence : string;
  env_evidence : Evidence
}.

Record Dependency : Type := MkDependency {
  dep_target : string;
  dep_type : string;
  dep_confidence : string;
  dep_evidence : Evidence
}.

Record AuthSignal : Type := MkAuthSignal {
  auth_signal : string;
  auth_confidence : string;
  auth_evidence : Evidence
}.

Record Endpoint : Type := MkEndpoint {
  ep_method : string;
  ep_path : string;
  ep_source : string;
  ep_confidence : string;
  ep_evidence : Evidence
}.

(** ** Heuristic extractors *)

(** The index is looked up in the lower-cased text and the window is cut out
    of the text itself.  On U+0000..U+00FF [str.lower] maps character to
    character, so an index of the one is an index of the other; on other text
    it can lengthen the text and the window is then cut at a shifted place. *)
Definition make_evidence (path text : option string) (needle : string)
    : Evidence :=
  let radius := 120 in
  let snippet :=
    match text, needle with
    | Some t, String _ _ =>
        match find (lower needle) (lower t) with
        | Some idx =>
            let start := idx - radius in
            let stop := Nat.min (String.length t)
                                (idx + String.length needle + radius) in
            Some (strip (slice start stop t))
        | None => None
        end
    | _, _ => None
    end in
  MkEvidence path snippet.

Definition repo_kind_for (spec : RepoSpec) (language readme_text : option string)
    : string :=
  let repo_name := lower (repo spec) in
  if contains "test" repo_name then "tests"
  else if contains "infra" repo_name then "infra"
  else if contains "middleware" repo_name || contains "sdk" repo_name
  then "library"
  else if contains "service" repo_name then "service"
  else
    let readme := lower (default "" readme_text) in
    if contains "microservice" readme || contains "service" readme
    then "service"
    else if contains "library" readme || contains "middleware" readme
    then "library"
    else
      match language with
      | Some (String _ _ as l) =>
          if bool_decide (lower l ∈ ["go"; "typescript"; "javascript"; "python"])
          then "service" else "unknown"
      | _ => "unknown"
      end.

(** [\b[A-Z][A-Z0-9_]*\b] *)
Definition env_tail (c : ascii) : bool :=
  is_upper_az c || is_digit c || is_char "_" c.

Definition env_pattern : list item :=
  [WordB; Cls is_upper_az; Rep env_tail 0 None; WordB].

Definition keep_env (name : string) : bool :=
  String.eqb name "PORT"
  || endswith "_SERVICE_URL" name
  || endswith "_URL" name
  || endswith "_TOKEN" name.

(** [not isinstance(text, str) or not text.strip()] *)
Definition blank (text : option string) : bool :=
  match text with
  | Some t => negb (truthy (Some (strip t)))
  | None => true
  end.

(** [sorted] on a list of strings. *)
Definition sorted (l : list string) : list string := merge_sort String.le l.

Definition extract_env_vars (readme_path readme_text : option string)
    : list EnvVar :=
  if blank readme_text then []
  else
    let text := default "" readme_text in
    let matches : gset string := list_to_set (findall env_pattern text) in
    let keep := filter (fun name => keep_env name = true) (elements matches) in
    (fun name =>
       MkEnvVar name "medium" (make_evidence readme_path readme_text name))
    <$> sorted (elements (list_to_set keep : gset string)).

Definition dependency_target (name : string) : string :=
  replace_char "_" "-"
    (lower (stake (String.length name - String.length "_SERVICE_URL") name))
  +:+ "-service".

Definition infer_step (spec : RepoSpec) (readme_path readme_text : option string)
    (acc : list Dependency * gset (string * string)) (env : EnvVar)
    : list Dependency * gset (string * string) :=
  let '(out, seen) := acc in
  let name := env_name env in
  if negb (endswith "_SERVICE_URL" name) then acc
  else
    let target := dependency_target name in
    let key := (repo spec, target) in
    if bool_decide (key ∈ seen) || String.eqb target (repo spec) then acc
    else (out ++ [MkDependency target "http" "medium"
                    (make_evidence readme_path readme_text name)],
          {[key]} ∪ seen).

Definition infer_depends_on (spec : RepoSpec) (env_vars : list EnvVar)
    (readme_path readme_text : option string) : list Dependency :=
  (foldl (infer_step spec readme_path readme_text) ([], ∅) env_vars).1.

Definition auth_markers : list string :=
  ["AuthGuard"; "RequireRolesGuard"; "RequireAllRolesGuard"; "@Roles";
   "@RequireAllRoles"; "AuthMiddleware"; "RequireRoles("; "RequireAllRoles("].

Definition extract_auth_signals (readme_path readme_text : option string)
    : list AuthSignal :=
  if blank readme_text then []
  else
    let text := default "" readme_text in
    (fun marker =>
       MkAuthSignal marker "medium"
         (make_evidence readme_path readme_text marker))
    <$> filter (fun marker => contains (lower marker) (lower text) = true)
               auth_markers.

(** [(?m)^\s{0,4}(/[^\s:#]+):\s*$] *)
Definition openapi_key_char (c : ascii) : bool :=
  negb (is_space c || is_char ":" c || is_char "#" c).

Definition openapi_pattern : list item :=
  [Bol; Rep is_space 0 (Some 4);
   Open; Cls (is_char "/"); Rep openapi_key_char 1 None; Close;
   Cls (is_char ":"); Rep is_space 0 None; Eol].

(** [\b(GET|...|HEAD)\b\s+`?(/[-A-Za-z0-9_{}:./]+)`?] *)
Definition readme_path_char (c : ascii) : bool :=
  is_char "-" c || is_upper_az c || is_lower_az c || is_digit c
  || is_char "_" c || is_char "{" c || is_char "}" c || is_char ":" c
  || is_char "." c || is_char "/" c.

Definition method_pattern : list item :=
  [WordB; Open; Alt HTTP_METHODS; Close; WordB;
   Rep is_space 1 None; Rep (is_char "`") 0 (Some 1);
   Open; Cls (is_char "/"); Rep readme_path_char 1 None; Close;
   Rep (is_char "`") 0 (Some 1)].

Definition openapi_step (openapi_path openapi_text : option string)
    (acc : list Endpoint * gset (string * string)) (m : rmatch)
    : list Endpoint * gset (string * string) :=
  let '(endpoints, seen) := acc in
  let path := strip (group 1 m) in
  if negb (startswith "/" path) then acc
  else
    let key := ("ANY", path) in
    if bool_decide (key ∈ seen) then acc
    else (endpoints ++ [MkEndpoint "ANY" path "openapi" "high"
                          (make_evidence openapi_path openapi_text path)],
          {[key]} ∪ seen).

Definition readme_step (readme_path readme_text : option string)
    (acc : list Endpoint * gset (string * string)) (m : rmatch)
    : list Endpoint * gset (string * string) :=
  let '(endpoints, seen) := acc in
  let method := upper (group 1 m) in
  let path := group 2 m in
  let key := (method, path) in
  if bool_decide (key ∈ seen) then acc
  else (endpoints ++ [MkEndpoint method path "readme" "medium"
                        (make_evidence readme_path readme_text
                           (method +:+ " " +:+ path))],
        {[key]} ∪ seen).

Definition openapi_scan (openapi_path openapi_text : option string)
    (acc : list Endpoint * gset (string * string))
    : list Endpoint * gset (string * string) :=
  if blank openapi_text then acc
  else foldl (openapi_step openapi_path openapi_text) acc
             (finditer openapi_pattern (default "" openapi_text)).

Definition readme_scan (readme_path readme_text : option string)
    (acc : list Endpoint * gset (string * string))
    : list Endpoint * gset (string * string) :=
  if blank readme_text then acc
  else foldl (readme_step readme_path readme_text) acc
             (finditer method_pattern (default "" readme_text)).

Definition extract_endpoints
    (readme_path readme_text openapi_path openapi_text : option string)
    : list Endpoint :=
  (readme_scan readme_path readme_text
     (openapi_scan openapi_path openapi_text ([], ∅))).1.

(** ** The HTTP client

    The network and the clock are the [World]: the replies the server will
    give to the next requests, the time in whole seconds, and the log of the
    sleeps taken.  A request takes the first pending outcome; with none left
    the connection fails.  An outcome is what the [try] around [urlopen] and
    [resp.read()] ends in: a response (returned, or carried by an
    [HTTPError]), a [URLError], or any other exception (a timeout or a
    connection dropped while the response is read), which [gh_post_json] does
    not catch. *)

Record Response : Type := MkResponse {
  status_code : Z;
  headers : gmap string string;
  raw : string
}.

Inductive Outcome : Type :=
  | URLError
  | Reply (r : Response)
  | Uncaught.

Record World : Type := MkWorld {
  now : Z;
  pending : list Outcome;
  slept : list Z
}.

Definition urlopen (w : World) : Outcome * World :=
  match pending w with
  | [] => (URLError, w)
  | o :: rest => (o, MkWorld (now w) rest (slept w))
  end.

(** [time.sleep(d)] *)
Definition sleep (d : Z) (w : World) : World :=
  MkWorld (now w + d) (pending w) (slept w ++ [d]).

Definition rate_limit_remaining (h : gmap string string) : option string :=
  h !! "X-RateLimit-Remaining".

Definition rate_limit_reset (h : gmap string string) : option string :=
  h !! "X-RateLimit-Reset".

Definition handle_rate_limit (status : Z) (h : gmap string string) (w : World)
    : World :=
  if negb (status =? 403)%Z then w
  else
    let remaining := rate_limit_remaining h in
    let reset := rate_limit_reset h in
    if bool_decide (remaining = Some "0") && truthy reset then
      match py_int (default "" reset) with
      | Some reset_ts =>
          let sleep_s := Z.max 1 (reset_ts - now w + 1) in
          sleep sleep_s w
      | None => w
      end
    else w.

(** ** JSON values

    What [json.loads] returns; [JNull] is Python's [None].  The numbers of the
    payload are integers (no requested field is a float).  An object is the
    list of its items, keys distinct. *)

#[warnings="-register-all"]
Inductive json : Type :=
  | JNull
  | JBool (b : bool)
  | JInt (n : Z)
  | JStr (s : string)
  | JArr (items : list json)
  | JObj (fields : list (string * json)).

Definition result : Type := json * option string.

Section Client.

(** [json.loads(raw.decode("utf-8", errors="replace"))]; [None] stands for
    [JSONDecodeError]. *)
Variable json_loads : string -> option json.

(** [for attempt in range(3)]: the loop body, with the attempts still to
    come as the list the recursion runs over.  [None] stands for an exception
    that leaves [gh_post_json]. *)
Fixpoint post_attempts (attempts : list nat) (w : World)
    : option result * World :=
  match attempts with
  | [] => (Some (JNull, Some "failed"), w)
  | attempt :: later =>
      match urlopen w with
      | (Uncaught, w1) => (None, w1)
      | (URLError, w1) =>
          if (attempt <? 2)%nat
          then post_attempts later (sleep (1 + Z.of_nat attempt) w1)
          else (Some (JNull, Some "network_error"), w1)
      | (Reply r, w1) =>
          let status := status_code r in
          let w2 := if (status =? 403)%Z
                    then handle_rate_limit status (headers r) w1 else w1 in
          if (status =? 403)%Z
             && bool_decide (rate_limit_remaining (headers r) = Some "0")
          then post_attempts later w2
          else if (status =? 200)%Z || (status =? 201)%Z then
            match json_loads (raw r) with
            | Some payload => (Some (payload, None), w2)
            | None => (Some (JNull, Some "invalid_json"), w2)
            end
          else if (status =? 404)%Z then (Some (JNull, Some "not_found"), w2)
          else if (status =? 401)%Z then (Some (JNull, Some "unauthorized"), w2)
          else if (status =? 403)%Z then (Some (JNull, Some "forbidden"), w2)
          else if (500 <=? status)%Z && (attempt <? 2)%nat
          then post_attempts later (sleep (1 + Z.of_nat attempt) w2)
          else (Some (JNull, Some ("http_" +:+ Z_to_string status)), w2)
      end
  end.

Definition gh_post_json (w : World) : option result * World :=
  post_attempts (seq 0 3) w.

End Client.

(** ** Reading the payload

    Where the script guards an access with [isinstance], the guard is in the
    model.  Where it writes [(x.get(k) or {}).get(...)] or [x.get(k) or []],
    the value is an object (an array) or falsy, as the GraphQL schema types
    it: anything else reads as empty here. *)

Fixpoint assoc (k : string) (kv : list (string * json)) : option json :=
  match kv with
  | [] => None
  | (k', v) :: kv' => if String.eqb k k' then Some v else assoc k kv'
  end.

(** [d.get(k)] on the items of an object. *)
Definition dict_get (k : string) (d : list (string * json)) : json :=
  default JNull (assoc k d).

(** [x or {}] *)
Definition or_empty (x : json) : list (string * json) :=
  match x with
  | JObj kv => kv
  | _ => []
  end.

(** [x or []] *)
Definition or_nil (x : json) : list json :=
  match x with
  | JArr l => l
  | _ => []
  end.

Definition json_truthy (x : json) : bool :=
  match x with
  | JNull => false
  | JBool b => b
  | JInt n => negb (n =? 0)%Z
  | JStr s => truthy (Some s)
  | JArr l => negb (bool_decide (l = []))
  | JObj kv => negb (bool_decide (kv = []))
  end.

(** [x if isinstance(x, str) else None] *)
Definition as_str (x : json) : option string :=
  match x with
  | JStr s => Some s
  | _ => None
  end.

Definition extract_blob_text (repo_node : list (string * json)) (alias : string)
    : option string :=
  match dict_get alias repo_node with
  | JObj node => as_str (dict_get "text" node)
  | _ => None
  end.

Fixpoint first_present (candidates : list (string * option string))
    : option string * option string :=
  match candidates with
  | [] => (None, None)
  | (p, Some txt) :: _ => (Some p, Some txt)
  | (_, None) :: rest => first_present rest
  end.

(** ** Repository records *)

Record FileField : Type := MkFileField {
  file_path : option string;
  file_text : string;
  file_truncated : bool       (* the key [truncated] is present, and [True] *)
}.

Record Files : Type := MkFiles {
  readme : option FileField;
  codeowners : option FileField;
  catalog : option FileField;
  openapi : option FileField
}.

Record Derived : Type := MkDerived {
  repo_kind : string;
  env_vars : list EnvVar;
  auth_signals : list AuthSignal;
  endpoints : list Endpoint;
  depends_on : list Dependency
}.

Record Entry : Type := MkEntry {
  entry_full_name : json;
  html_url : json;
  description : json;
  homepage : json;
  topics : list string;
  visibility : option string;
  private : json;
  archived : json;
  disabled : json;
  fork : json;
  default_branch : json;
  created_at : json;
  updated_at : json;
  pushed_at : json;
  license : json;
  open_issues_count : json;
  stargazers_count : json;
  watchers_count : json;
  forks_count : json;
  language : json;
  owner_login : json;
  owner_type : json;
  languages_bytes : gmap string Z;
  files : Files;
  derived : Derived
}.

Inductive RepoRecord : Type :=
  | ErrorRecord (name : string) (error : string)
  | FullRecord (e : Entry).

#[warnings="-abstract-large-number"]
Definition MAX_TEXT : nat := 200000.

Definition TRUNCATED : string :=
  String "010" (String "010" ("[TRUNCATED]" +:+ String "010" "")).

(** [{"path": p, "text": t} if t else None] *)
Definition file_field (path text : option string) : option FileField :=
  if truthy text then Some (MkFileField path (default "" text) false) else None.

(** The body of the loop over [entry["files"]]. *)
Definition truncate_field (v : option FileField) : option FileField :=
  match v with
  | None => None
  | Some f =>
      let txt := file_text f in
      if (MAX_TEXT <? String.length txt)%nat
      then Some (MkFileField (file_path f) (stake MAX_TEXT txt +:+ TRUNCATED) true)
      else Some f
  end.

Definition truncate_files (fs : Files) : Files :=
  MkFiles (truncate_field (readme fs)) (truncate_field (codeowners fs))
          (truncate_field (catalog fs)) (truncate_field (openapi fs)).

Definition with_files (e : Entry) (fs : Files) : Entry :=
  MkEntry (entry_full_name e) (html_url e) (description e) (homepage e)
    (topics e) (visibility e) (private e) (archived e) (disabled e) (fork e)
    (default_branch e) (created_at e) (updated_at e) (pushed_at e) (license e)
    (open_issues_count e) (stargazers_count e) (watchers_count e)
    (forks_count e) (language e) (owner_login e) (owner_type e)
    (languages_bytes e) fs (derived e).

(** ** Response normaliser and aggregator *)

Record Edge : Type := MkEdge {
  edge_from : string;
  edge_to : string;
  edge_type : string;
  edge_confidence : string;
  edge_evidence : Evidence
}.

(** The output document (its [generated_at] stamp is left out). *)
Record SystemsMap : Type := MkSystemsMap {
  schema_version : string;
  source : string;
  repos : list RepoRecord;
  dependency_edges : list Edge
}.

(** [range(0, stop, step)] for [0 <= stop]; [None] stands for the
    [ValueError] of a zero step. *)
Definition range0 (stop step : Z) : option (list Z) :=
  if (step =? 0)%Z then None
  else if (step <? 0)%Z then Some []
  else Some ((fun j => (Z.of_nat j * step)%Z)
             <$> seq 0 (Z.to_nat ((stop + step - 1) / step))).

(** [l[i : i + n]] for [0 <= i] and [0 < n]. *)
Definition slice_from {A : Type} (i n : Z) (l : list A) : list A :=
  take (Z.to_nat n) (drop (Z.to_nat i) l).

Section Pipeline.

Variable json_loads : string -> option json.

(** [str(x)] for a list or a dict [x]. *)
Variable container_str : json -> string.

Definition py_str (x : json) : string :=
  match x with
  | JNull => "None"
  | JBool true => "True"
  | JBool false => "False"
  | JInt n => Z_to_string n
  | JStr s => s
  | _ => container_str x
  end.

Definition error_step (errors_by_alias : gmap string string) (e : json)
    : gmap string string :=
  match e with
  | JObj d =>
      let msg := dict_get "message" d in
      match dict_get "path" d with
      | JArr (p0 :: _) =>
          <[py_str p0 :=
              py_str (if json_truthy msg then msg else JStr "graphql_error")]>
            errors_by_alias
      | _ => errors_by_alias
      end
  | _ => errors_by_alias
  end.

Definition topic_name (n : json) : option string :=
  match n with
  | JObj d => as_str (dict_get "name" (or_empty (dict_get "topic" d)))
  | _ => None
  end.

Definition language_step (languages : gmap string Z) (edge : json)
    : gmap string Z :=
  match edge with
  | JObj d =>
      match dict_get "name" (or_empty (dict_get "node" d)), dict_get "size" d with
      | JStr lang_name, JInt n => <[lang_name := n]> languages
      | JStr lang_name, JBool b => <[lang_name := if b then 1%Z else 0%Z]> languages
      | _, _ => languages
      end
  | _ => languages
  end.

Definition readme_candidates (repo_node : list (string * json))
    : list (string * option string) :=
  [("README.md", extract_blob_text repo_node "readme_md");
   ("README.rst", extract_blob_text repo_node "readme_rst");
   ("README.txt", extract_blob_text repo_node "readme_txt")].

Definition codeowners_candidates (repo_node : list (string * json))
    : list (string * option string) :=
  [("CODEOWNERS", extract_blob_text repo_node "codeowners_root");
   (".github/CODEOWNERS", extract_blob_text repo_node "codeowners_gh")].

Definition catalog_candidates (repo_node : list (string * json))
    : list (string * option string) :=
  [("catalog-info.yaml", extract_blob_text repo_node "catalog_yaml");
   ("catalog-info.yml", extract_blob_text repo_node "catalog_yml")].

Definition openapi_candidates (repo_node : list (string * json))
    : list (string * option string) :=
  [("openapi.yaml", extract_blob_text repo_node "openapi_yaml");
   ("openapi.yml", extract_blob_text repo_node "openapi_yml");
   ("swagger.yaml", extract_blob_text repo_node "swagger_yaml");
   ("swagger.yml", extract_blob_text repo_node "swagger_yml");
   ("api/openapi.yaml", extract_blob_text repo_node "api_openapi_yaml");
   ("api/openapi.yml", extract_blob_text repo_node "api_openapi_yml");
   ("api/swagger.yaml", extract_blob_text repo_node "api_swagger_yaml");
   ("api/swagger.yml", extract_blob_text repo_node "api_swagger_yml")].

(** The derived block, computed from the texts as they were retrieved. *)
Definition derive (spec : RepoSpec) (repo_node : list (string * json))
    : Derived :=
  let '(readme_path, readme_text) := first_present (readme_candidates repo_node) in
  let '(openapi_path, openapi_text) := first_present (openapi_candidates repo_node) in
  let env_vars := extract_env_vars readme_path readme_text in
  let depends_on := infer_depends_on spec env_vars readme_path readme_text in
  let auth_signals := extract_auth_signals readme_path readme_text in
  let endpoints :=
    extract_endpoints readme_path readme_text openapi_path openapi_text in
  let repo_kind :=
    repo_kind_for spec
      (as_str (dict_get "name" (or_empty (dict_get "primaryLanguage" repo_node))))
      readme_text in
  MkDerived repo_kind env_vars auth_signals endpoints depends_on.

(** [entry["files"]] as first built, before the truncation loop. *)
Definition retrieved_files (repo_node : list (string * json)) : Files :=
  let '(readme_path, readme_text) := first_present (readme_candidates repo_node) in
  let '(codeowners_path, codeowners_text) :=
    first_present (codeowners_candidates repo_node) in
  let '(catalog_path, catalog_text) := first_present (catalog_candidates repo_node) in
  let '(openapi_path, openapi_text) := first_present (openapi_candidates repo_node) in
  MkFiles (file_field readme_path readme_text)
          (file_field codeowners_path codeowners_text)
          (file_field catalog_path catalog_text)
          (file_field openapi_path openapi_text).

(** The entry of one repository node: built in full, then its files are
    truncated in place. *)
Definition build_entry (spec : RepoSpec) (repo_node : list (string * json))
    : Entry :=
  let sub k := or_empty (dict_get k repo_node) in
  let entry :=
    MkEntry
      (default (JStr (full_name spec)) (assoc "nameWithOwner" repo_node))
      (dict_get "url" repo_node)
      (dict_get "description" repo_node)
      (dict_get "homepageUrl" repo_node)
      (omap topic_name (or_nil (dict_get "nodes" (sub "repositoryTopics"))))
      (if json_truthy (dict_get "visibility" repo_node)
       then Some (lower (py_str (dict_get "visibility" repo_node))) else None)
      (dict_get "isPrivate" repo_node)
      (dict_get "isArchived" repo_node)
      (dict_get "isDisabled" repo_node)
      (dict_get "isFork" repo_node)
      (dict_get "name" (sub "defaultBranchRef"))
      (dict_get "createdAt" repo_node)
      (dict_get "updatedAt" repo_node)
      (dict_get "pushedAt" repo_node)
      (dict_get "spdxId" (sub "licenseInfo"))
      (dict_get "totalCount" (sub "issues"))
      (dict_get "stargazerCount" repo_node)
      (dict_get "totalCount" (sub "watchers"))
      (dict_get "forkCount" repo_node)
      (dict_get "name" (sub "primaryLanguage"))
      (dict_get "login" (sub "owner"))
      (dict_get "__typename" (sub "owner"))
      (foldl language_step ∅ (or_nil (dict_get "edges" (sub "languages"))))
      (retrieved_files repo_node)
      (derive spec repo_node) in
  with_files entry (truncate_files (files entry)).

Definition alias_step (data : list (string * json))
    (errors_by_alias : gmap string string)
    (out : gmap string RepoRecord) (a : string * RepoSpec)
    : gmap string RepoRecord :=
  let '(alias, spec) := a in
  match errors_by_alias !! alias with
  | Some msg => <[full_name spec := ErrorRecord (full_name spec) msg]> out
  | None =>
      match dict_get alias data with
      | JObj repo_node =>
          <[full_name spec := FullRecord (build_entry spec repo_node)]> out
      | _ => <[full_name spec := ErrorRecord (full_name spec) "not_found"]> out
      end
  end.

Definition is_dict (x : json) : bool :=
  match x with
  | JObj _ => true
  | _ => false
  end.

(** [None] stands for an exception that left [gh_post_json]: it leaves
    [get_repo_bundle_graphql] too. *)
Definition get_repo_bundle_graphql (specs : list RepoSpec) (w : World)
    : option (gmap string RepoRecord) * World :=
  let aliases := imap (fun i spec => ("r" +:+ nat_to_string i, spec)) specs in
  match gh_post_json json_loads w with
  | (None, w') => (None, w')
  | (Some (payload, err), w') =>
      if truthy err || negb (is_dict payload) then
        (Some (foldl (fun out spec =>
                        <[full_name spec :=
                            ErrorRecord (full_name spec)
                              (if truthy err then default "" err else "unknown")]> out)
                     ∅ specs), w')
      else
        let errors_by_alias :=
          foldl error_step ∅ (or_nil (dict_get "errors" (or_empty payload))) in
        let data := or_empty (dict_get "data" (or_empty payload)) in
        (Some (foldl (alias_step data errors_by_alias) ∅ aliases), w')
  end.

Definition edges_of (spec : RepoSpec) (entry : RepoRecord) : list Edge :=
  match entry with
  | FullRecord e =>
      (fun dep =>
         MkEdge (repo spec) (dep_target dep) (dep_type dep)
                (dep_confidence dep) (dep_evidence dep))
      <$> filter (fun dep => truthy (Some (dep_target dep)) = true)
                 (depends_on (derived e))
  | ErrorRecord _ _ => []
  end.

(** The inner loop of [main]: one record and its edges per spec of the chunk. *)
Definition spec_step (by_repo : gmap string RepoRecord) (res : SystemsMap)
    (spec : RepoSpec) : SystemsMap :=
  let entry := default (ErrorRecord (full_name spec) "unknown")
                       (by_repo !! full_name spec) in
  MkSystemsMap (schema_version res) (source res)
               (repos res ++ [entry])
               (dependency_edges res ++ edges_of spec entry).

(** The outer loop of [main]: one request per chunk.  Once an exception has
    left a request the loop is over: [None] for the document. *)
Definition chunk_step (batch_size : Z) (specs : list RepoSpec)
    (acc : option SystemsMap * World) (i : Z) : option SystemsMap * World :=
  match acc with
  | (None, w) => (None, w)
  | (Some res, w) =>
      let chunk := slice_from i batch_size specs in
      match get_repo_bundle_graphql chunk w with
      | (Some by_repo, w') => (Some (foldl (spec_step by_repo) res chunk), w')
      | (None, w') => (None, w')
      end
  end.

(** [main] from the loaded list on: the document that is written, and the
    world the run leaves.  [None] stands for [die] and for an uncaught
    exception, after which nothing is written. *)
Definition main (specs : list RepoSpec) (token : string) (batch_size : Z)
    (w : World) : option SystemsMap * World :=
  match specs, token with
  | [], _ => (None, w)
  | _, EmptyString => (None, w)
  | _, _ =>
      let result := MkSystemsMap "1.1" "GitHub GraphQL API" [] [] in
      match range0 (Z.of_nat (length specs)) batch_size with
      | None => (None, w)
      | Some starts => foldl (chunk_step batch_size specs) (Some result, w) starts
      end
  end.

End Pipeline.

(** ** Repository list loader

    [load_repo_list] from the lines of the file on ([read_text().splitlines()]);
    the second component collects what is printed to the diagnostic stream. *)

Definition load_step (acc : list RepoSpec * list string) (raw_line : string)
    : list RepoSpec * list string :=
  let '(specs, warnings) := acc in
  let line := strip raw_line in
  if negb (truthy (Some line)) || startswith "#" line then acc
  else if negb (contains "/" line) then
    (specs, warnings ++ ["Skipping invalid line (expected owner/repo): " +:+ line])
  else
    match split_once "/" line with
    | Some (o, r) =>
        let owner := strip o in
        let repo := strip r in
        if truthy (Some owner) && truthy (Some repo)
        then (specs ++ [MkRepoSpec owner repo], warnings)
        else (specs,
              warnings ++ ["Skipping invalid line (blank owner or repo): " +:+ line])
    | None => acc
    end.

Definition load_repo_list (lines : list string) : list RepoSpec * list string :=
  foldl load_step ([], []) lines.

(** ** Environment file loader

    [load_dotenv] from the lines of the file on ([read_text().splitlines()]);
    no lines stand for a file that does not exist.  [os.environ] is a map
    from names to values; storing a name or a value that holds a NUL
    character raises [ValueError], for which [None] stands. *)





(** * Vocabulary of the statements

    Notions the theorems below are stated with, and sample inputs. *)

Definition edge_key (spec : RepoSpec) (d : Dependency) : string * string :=
  (repo spec, dep_target d).

(** What the loop of [infer_depends_on] maintains: [seen] holds the keys of the
    edges emitted so far, no key twice, no edge back to the repository. *)
Definition infer_inv (spec : RepoSpec)
    (acc : list Dependency * gset (string * string)) : Prop :=
  (∀ k, k ∈ acc.2 ↔ k ∈ edge_key spec <$> acc.1)
  ∧ NoDup (edge_key spec <$> acc.1)
  ∧ Forall (fun d => dep_target d ≠ repo spec) acc.1.

Inductive file_kind : Type := KReadme | KCodeowners | KCatalog | KOpenapi.

Definition candidates_of (k : file_kind) (repo_node : list (string * json))
    : list (string * option string) :=
  match k with
  | KReadme => readme_candidates repo_node
  | KCodeowners => codeowners_candidates repo_node
  | KCatalog => catalog_candidates repo_node
  | KOpenapi => openapi_candidates repo_node
  end.

Definition stored (k : file_kind) (fs : Files) : option FileField :=
  match k with
  | KReadme => readme fs
  | KCodeowners => codeowners fs
  | KCatalog => catalog fs
  | KOpenapi => openapi fs
  end.

Fixpoint replicate_char (n : nat) (c : ascii) : string :=
  match n with
  | O => EmptyString
  | S n' => String c (replicate_char n' c)
  end.

(** A README one character over the limit. *)
Definition long_text : string := replicate_char (S MAX_TEXT) "a".

Definition long_node : list (string * json) :=
  [("readme_md", JObj [("text", JStr long_text)])].

Definition long_field : FileField :=
  MkFileField (Some "README.md") (stake MAX_TEXT long_text +:+ TRUNCATED) true.


(** Sample replies: a parser that accepts the body [{}] only, a 200 reply
    with that body, a bare reply of a given status, and a 403 reply of an
    exhausted rate limit that resets at the given time. *)
Definition parse_braces (body : string) : option json :=
  if String.eqb body "{}" then Some (JObj []) else None.

Definition ok_reply : Outcome := Reply (MkResponse 200 ∅ "{}").

Definition bare_response (status : Z) : Response := MkResponse status ∅ "".

Definition rate_limited (reset : string) : Response :=
  MkResponse 403
    (<["X-RateLimit-Remaining" := "0"]> (<["X-RateLimit-Reset" := reset]> ∅)) "".

Definition rate_limited_reply (reset : string) : Outcome :=
  Reply (rate_limited reset).

(** The state after a run of characters has been consumed, and the character
    just before the position reached. *)
Definition pushes (taken : list ascii) (st : mstate) : mstate :=
  foldl (fun st c => push c st) st taken.

Definition last_before (prev : option ascii) (taken : list ascii) : option ascii :=
  match last taken with
  | Some c => Some c
  | None => prev
  end.

(** The shape of an environment-variable token: an upper-case letter, then
    upper-case letters, digits and underscores. *)
Definition env_token (s : string) : Prop :=
  match s with
  | String c tail =>
      is_upper_az c = true ∧ forallb env_tail (list_ascii_of_string tail) = true
  | EmptyString => False
  end.

(** The key endpoints are deduplicated by. *)
Definition endpoint_key (e : Endpoint) : string * string :=
  (ep_method e, ep_path e).

(** What both loops of [extract_endpoints] maintain: [seen] holds the keys of
    the endpoints collected so far, no key twice. *)
Definition endpoints_inv (acc : list Endpoint * gset (string * string)) : Prop :=
  (∀ k, k ∈ acc.2 ↔ k ∈ endpoint_key <$> acc.1)
  ∧ NoDup (endpoint_key <$> acc.1).

(** A loop step only appends endpoints that satisfy [P]. *)
Definition appends (P : Endpoint → Prop)
    (acc acc' : list Endpoint * gset (string * string)) : Prop :=
  ∃ more, acc'.1 = acc.1 ++ more ∧ Forall P more.

(** A path that both texts mention. *)
Definition users_openapi : option string :=
  Some ("paths:" +:+ String "010" ("  /users:" +:+ String "010" "    get:")).

Definition users_readme : option string := Some "Call GET /users to list users.".

Definition users_endpoint : Endpoint :=
  MkEndpoint "ANY" "/users" "openapi" "high"
    (make_evidence (Some "openapi.yaml") users_openapi "/users").

(** A line the loader looks at: not blank and not a comment once stripped. *)
Definition considered (raw_line : string) : bool :=
  truthy (Some (strip raw_line)) && negb (startswith "#" (strip raw_line)).

(** A line that yields [spec]: its stripped text is [o/r] with no [/] in [o],
    and neither [o] nor [r] is blank. *)
Definition accepts (raw_line : string) (spec : RepoSpec) : Prop :=
  ∃ o r,
    considered raw_line = true
    ∧ strip raw_line = o +:+ "/" +:+ r
    ∧ contains "/" o = false
    ∧ strip o ≠ "" ∧ strip r ≠ ""
    ∧ spec = MkRepoSpec (strip o) (strip r).

Fixpoint count_char (c : ascii) (s : string) : nat :=
  match s with
  | EmptyString => 0
  | String d s' => (if Ascii.eqb d c then 1 else 0) + count_char c s'
  end.






Definition users_readme_endpoint : Endpoint :=
  MkEndpoint "GET" "/users" "readme" "medium"
    (make_evidence (Some "README.md") users_readme "GET /users").

(** A payload with a node for the first alias, [null] for the second and a
    field error for the third. *)
Definition sample_payload : json :=
  JObj [("data",
         JObj [("r0", JObj [("readme_md",
                             JObj [("text", JStr "Needs AUTH_SERVICE_URL.")])]);
               ("r1", JNull)]);
        ("errors",
         JArr [JObj [("path", JArr [JStr "r2"]); ("message", JStr "boom")]])].

Definition parse_sample (body : string) : option json :=
  if String.eqb body "{}" then Some sample_payload else None.

(** The sum of a list of sleeps. *)
Definition total (l : list Z) : Z := foldr Z.add 0%Z l.

(** An outcome the client retries: no connection, a server error, or a 403
    of an exhausted rate limit. *)
Definition transient (o : Outcome) : Prop :=
  match o with
  | URLError => True
  | Reply r =>
      (500 ≤ status_code r)%Z
      ∨ (status_code r = 403%Z ∧ rate_limit_remaining (headers r) = Some "0")
  | Uncaught => False
  end.

(** A result is explained by the replies received: a payload by a 200 or 201
    reply whose body parses to it, an error code by what the client maps to it. *)
Definition explains (json_loads : string → option json) (replies : list Outcome)
    (res : result) : Prop :=
  match res with
  | (payload, None) =>
      ∃ r, Reply r ∈ replies
           ∧ (status_code r = 200 ∨ status_code r = 201)%Z
           ∧ json_loads (raw r) = Some payload
  | (payload, Some err) =>
      payload = JNull
      ∧ (err = "failed"
         ∨ err = "network_error"
         ∨ (err = "invalid_json"
            ∧ ∃ r, Reply r ∈ replies
                   ∧ (status_code r = 200 ∨ status_code r = 201)%Z
                   ∧ json_loads (raw r) = None)
         ∨ (err = "not_found" ∧ ∃ r, Reply r ∈ replies ∧ status_code r = 404%Z)
         ∨ (err = "unauthorized" ∧ ∃ r, Reply r ∈ replies ∧ status_code r = 401%Z)
         ∨ (err = "forbidden"
            ∧ ∃ r, Reply r ∈ replies ∧ status_code r = 403%Z
                   ∧ rate_limit_remaining (headers r) ≠ Some "0")
         ∨ (∃ r, Reply r ∈ replies
                 ∧ err = "http_" +:+ Z_to_string (status_code r)
                 ∧ status_code r ∉ [200; 201; 401; 403; 404]%Z))
  end.

(** What a call of the client ends in is explained by the outcomes of its
    requests: a result as above, an exception by an outcome that is one. *)
Definition explained (json_loads : string → option json) (replies : list Outcome)
    (out : option result) : Prop :=
  match out with
  | Some res => explains json_loads replies res
  | None => Uncaught ∈ replies
  end.

(** The shape of an endpoint path: a slash, then at least one character of a
    class. *)
Definition slash_path (p : ascii → bool) (path : string) : Prop :=
  ∃ tail, path = String "/" tail ∧ tail ≠ ""
          ∧ forallb p (list_ascii_of_string tail) = true.

(** What is recorded for an endpoint read from the OpenAPI text. *)
Definition openapi_endpoint (openapi_path : option string) (e : Endpoint) : Prop :=
  ep_source e = "openapi" ∧ ep_method e = "ANY" ∧ ep_confidence e = "high"
  ∧ slash_path openapi_key_char (ep_path e)
  ∧ ev_path (ep_evidence e) = openapi_path.

(** What is recorded for an endpoint read from the README. *)
Definition readme_endpoint (readme_path : option string) (e : Endpoint) : Prop :=
  ep_source e = "readme" ∧ ep_method e ∈ HTTP_METHODS ∧ ep_confidence e = "medium"
  ∧ slash_path readme_path_char (ep_path e)
  ∧ ev_path (ep_evidence e) = readme_path.

(** The edge that [infer_depends_on] records for an environment variable. *)
Definition dependency_of (path text : option string) (name : string) : Dependency :=
  MkDependency (dependency_target name) "http" "medium"
               (make_evidence path text name).

(** An environment variable that names another service. *)
Definition names_service (spec : RepoSpec) (env : EnvVar) (target : string) : Prop :=
  endswith "_SERVICE_URL" (env_name env) = true
  ∧ target = dependency_target (env_name env)
  ∧ target ≠ repo spec.

(** A node whose [README.md] is empty while its [README.rst] has text. *)
Definition shadowed_node : list (string * json) :=
  [("readme_md", JObj [("text", JStr "")]);
   ("readme_rst",
    JObj [("text", JStr "Set BILLING_SERVICE_URL, then call GET /invoices.")])].



(** A spec as the loader produces them: owner and repo are not blank and
    carry no blank at either end, the owner holds no [/] and does not start a
    comment. *)
Definition clean (spec : RepoSpec) : Prop :=
  owner spec ≠ "" ∧ repo spec ≠ ""
  ∧ strip (owner spec) = owner spec ∧ strip (repo spec) = repo spec
  ∧ contains "/" (owner spec) = false
  ∧ startswith "#" (owner spec) = false.




(** A reply of an exhausted rate limit. *)
Definition exhausted (o : Outcome) : Prop :=
  match o with
  | Reply r => status_code r = 403%Z ∧ rate_limit_remaining (headers r) = Some "0"
  | URLError | Uncaught => False
  end.


(** A text of ASCII characters.  On such a text [str.lower] maps character to
    character, as [lower] does; beyond U+00FF it can change the length of a
    text. *)
Definition ascii_text (s : string) : Prop :=
  forallb (fun c => (code c <? 128)%N) (list_ascii_of_string s) = true.

(** [name] stands in [text] as a whole token: it has the shape of a token,
    and the characters next to it in the text, if any, are not word
    characters (the two [\b] of the pattern). *)
Definition token_of (text name : string) : Prop :=
  env_token name
  ∧ ∃ pre post,
      text = pre +:+ name +:+ post
      ∧ word_at (last (list_ascii_of_string pre)) = false
      ∧ word_at (head (list_ascii_of_string post)) = false.

(** A README with tokens of every kind: kept and dropped, repeated, out of
    order, and runs that are no token because a word character is next to
    them. *)
Definition tokens_readme : string :=
  "Set PORT=8080 and AUTH_SERVICE_URL; API_TOKEN, xBAD_URL, DB_URL2, HOME, API_TOKEN.".

(** * Properties *)
(** ** Dependency inference *)

Lemma infer_inv_init spec : infer_inv spec ([], ∅).
Proof.
  repeat split; simpl; try set_solver.
  constructor.
Qed.

Lemma infer_inv_step spec path text acc env :
  infer_inv spec acc → infer_inv spec (infer_step spec path text acc env).
Proof.
  destruct acc as [out seen]. intros Hacc.
  assert (Hacc' := Hacc). destruct Hacc' as (Hseen & Hnd & Hself).
  unfold infer_step.
  destruct (endswith "_SERVICE_URL" (env_name env)); simpl; [|exact Hacc].
  set (target := dependency_target (env_name env)).
  case_bool_decide as Hin; simpl; [exact Hacc|].
  destruct (String.eqb_spec target (repo spec)) as [Heq|Hne]; [exact Hacc|].
  unfold infer_inv; cbn [fst snd] in *. rewrite fmap_app. cbn [fmap list_fmap].
  split; [|split].
  - intros k. rewrite elem_of_union, elem_of_singleton, elem_of_app,
      list_elem_of_singleton, Hseen. unfold edge_key at 3; simpl. tauto.
  - apply NoDup_app. split; [done|]. split; [|apply NoDup_singleton].
    intros k Hk Hk'. apply list_elem_of_singleton in Hk' as ->.
    apply Hin. by apply Hseen.
  - apply Forall_app. split; [done|]. by repeat constructor.
Qed.

Lemma infer_inv_foldl spec path text env_vars acc :
  infer_inv spec acc →
  infer_inv spec (foldl (infer_step spec path text) acc env_vars).
Proof.
  revert acc. induction env_vars as [|env env_vars IH]; intros acc Hacc; [done|].
  simpl. apply IH. by apply infer_inv_step.
Qed.

(** C8: whatever the repository and the list of environment variables,
    [infer_depends_on] emits no edge whose target is the repository's own name
    and no two edges with the same (repo, target) pair. *)
Theorem infer_depends_on_no_self_loop_no_duplicate
    (spec : RepoSpec) (env_vars : list EnvVar) (readme_path readme_text : option string) :
  Forall (fun d => dep_target d ≠ repo spec)
         (infer_depends_on spec env_vars readme_path readme_text)
  ∧ NoDup ((fun d => (repo spec, dep_target d))
           <$> infer_depends_on spec env_vars readme_path readme_text).
Proof.
  destruct (infer_inv_foldl spec readme_path readme_text env_vars ([], ∅)
              (infer_inv_init spec)) as (_ & Hnd & Hself).
  split; [exact Hself | exact Hnd].
Qed.

(** ** Repository kind *)

Lemma prefix_smap (f : ascii → ascii) (n s : string) :
  String.prefix n s = true → String.prefix (smap f n) (smap f s) = true.
Proof.
  revert s. induction n as [|a n IH]; intros [|b s]; simpl; try done.
  destruct (ascii_dec a b) as [->|]; [|done].
  intros H. destruct (ascii_dec (f b) (f b)); [by apply IH | done].
Qed.

Lemma contains_smap (f : ascii → ascii) (n s : string) :
  contains n s = true → contains (smap f n) (smap f s) = true.
Proof.
  induction s as [|b s IH]; simpl.
  - rewrite !orb_false_r. apply (prefix_smap f n "").
  - intros [H|H]%orb_true_iff; apply orb_true_iff.
    + left. apply (prefix_smap f n (String b s) H).
    + right. by apply IH.
Qed.

(** A lower-case needle found in a name is found in the lowered name. *)
Lemma contains_lower (n s : string) :
  lower n = n → contains n s = true → contains n (lower s) = true.
Proof. intros Hn H. rewrite <- Hn. by apply contains_smap. Qed.

(** C5, as amended: a repository whose name contains "infra" and, once
    lowered, does not contain "test" is classified "infra", whatever the README
    and the primary language. *)
Theorem repo_kind_infra (spec : RepoSpec) (language readme_text : option string) :
  contains "infra" (repo spec) = true →
  contains "test" (lower (repo spec)) = false →
  repo_kind_for spec language readme_text = "infra".
Proof.
  intros Hinfra Htest. unfold repo_kind_for. rewrite Htest.
  by rewrite (contains_lower "infra" (repo spec) eq_refl Hinfra).
Qed.

Lemma repo_kind_infra_witness :
  repo_kind_for (MkRepoSpec "acme" "Platform-infra") (Some "Go")
                (Some "A library of middleware.") = "infra".
Proof. apply repo_kind_infra; reflexivity. Defined.

(** C5 as first stated fails: the "test" rule is checked before the "infra"
    rule, so a name with both is classified "tests". *)
Lemma repo_kind_infra_counterexample :
  ∃ spec language readme_text,
    contains "infra" (repo spec) = true
    ∧ repo_kind_for spec language readme_text ≠ "infra".
Proof.
  exists (MkRepoSpec "acme" "infra-tests"), None, None.
  split; [reflexivity | discriminate].
Qed.

(** ** Stored files *)

Lemma length_stake (n : nat) (s : string) :
  n ≤ String.length s → String.length (stake n s) = n.
Proof.
  revert s. induction n as [|n IH]; intros [|c s] H; simpl in *; try lia.
  rewrite IH; lia.
Qed.

Lemma stake_all (n : nat) (s : string) : String.length s ≤ n → stake n s = s.
Proof.
  revert s. induction n as [|n IH]; intros [|c s] H; simpl in *; try done; try lia.
  rewrite IH; [done | lia].
Qed.

Lemma files_build_entry container_str spec repo_node :
  files (build_entry container_str spec repo_node)
  = truncate_files (retrieved_files repo_node).
Proof. reflexivity. Qed.

Lemma stored_retrieved (k : file_kind) (repo_node : list (string * json)) :
  stored k (truncate_files (retrieved_files repo_node))
  = truncate_field (file_field (first_present (candidates_of k repo_node)).1
                               (first_present (candidates_of k repo_node)).2).
Proof.
  destruct k; cbn [candidates_of]; unfold retrieved_files;
    destruct (first_present (readme_candidates repo_node));
    destruct (first_present (codeowners_candidates repo_node));
    destruct (first_present (catalog_candidates repo_node));
    destruct (first_present (openapi_candidates repo_node));
    reflexivity.
Qed.

(** What the truncation loop leaves of a retrieved text. *)
Lemma truncate_file_field (path : option string) (txt : string) :
  truncate_field (file_field path (Some txt))
  = if bool_decide (txt = "") then None
    else if (MAX_TEXT <? String.length txt)%nat
         then Some (MkFileField path (stake MAX_TEXT txt +:+ TRUNCATED) true)
         else Some (MkFileField path txt false).
Proof.
  unfold file_field. destruct txt as [|c txt]; [reflexivity|].
  cbn [truthy truncate_field file_text file_path default]. reflexivity.
Qed.

(** C7: every file field stored in a record comes from a retrieved text; when
    that text is longer than 200,000 characters the field holds exactly its
    first 200,000 characters followed by the marker, with [truncated] set;
    otherwise the field holds the text unchanged and [truncated] is not set. *)
Theorem stored_file_truncation (container_str : json → string)
    (spec : RepoSpec) (repo_node : list (string * json))
    (k : file_kind) (f : FileField) :
  stored k (files (build_entry container_str spec repo_node)) = Some f →
  ∃ txt,
    first_present (candidates_of k repo_node) = (file_path f, Some txt)
    ∧ (MAX_TEXT < String.length txt →
         file_text f = stake MAX_TEXT txt +:+ TRUNCATED
         ∧ String.length (stake MAX_TEXT txt) = MAX_TEXT
         ∧ file_truncated f = true)
    ∧ (String.length txt ≤ MAX_TEXT →
         file_text f = txt ∧ file_truncated f = false).
Proof.
  rewrite files_build_entry, stored_retrieved.
  destruct (first_present (candidates_of k repo_node)) as [path [txt|]];
    cbn [fst snd]; [|discriminate].
  rewrite truncate_file_field. case_bool_decide; [discriminate|].
  generalize MAX_TEXT; intros limit.
  destruct (limit <? String.length txt)%nat eqn:Hlen; intros Hf;
    injection Hf as <-; exists txt; cbn [file_path file_text file_truncated].
  - apply Nat.ltb_lt in Hlen. split; [done|]. split; [|lia]. intros _.
    split; [done|]. split; [apply length_stake; lia | done].
  - apply Nat.ltb_ge in Hlen. split; [done|]. split; [lia | done].
Qed.

Lemma length_replicate_char (n : nat) (c : ascii) :
  String.length (replicate_char n c) = n.
Proof. induction n as [|n IH]; simpl; [done | by rewrite IH]. Qed.

Lemma long_text_length : String.length long_text = S MAX_TEXT.
Proof. apply length_replicate_char. Qed.

Lemma long_node_readme :
  first_present (candidates_of KReadme long_node) = (Some "README.md", Some long_text).
Proof. reflexivity. Qed.

Lemma long_field_stored (container_str : json → string) (spec : RepoSpec) :
  stored KReadme (files (build_entry container_str spec long_node)) = Some long_field.
Proof.
  rewrite files_build_entry, stored_retrieved, long_node_readme.
  cbn [fst snd]. rewrite truncate_file_field.
  assert (Hlen := long_text_length).
  case_bool_decide as Hempty; [rewrite Hempty in Hlen; discriminate Hlen|].
  rewrite Hlen. unfold long_field. generalize MAX_TEXT. intros limit.
  by rewrite (proj2 (Nat.ltb_lt limit (S limit)) (Nat.lt_succ_diag_r limit)).
Qed.

Lemma stored_file_truncation_witness :
  ∃ txt,
    first_present (candidates_of KReadme long_node) = (file_path long_field, Some txt)
    ∧ (MAX_TEXT < String.length txt →
         file_text long_field = stake MAX_TEXT txt +:+ TRUNCATED
         ∧ String.length (stake MAX_TEXT txt) = MAX_TEXT
         ∧ file_truncated long_field = true)
    ∧ (String.length txt ≤ MAX_TEXT →
         file_text long_field = txt ∧ file_truncated long_field = false).
Proof.
  exact (stored_file_truncation (fun _ => "") (MkRepoSpec "acme" "docs") long_node
           KReadme long_field (long_field_stored _ _)).
Defined.

(** ** The HTTP client *)

Lemma py_int_truthy (s : string) (z : Z) : py_int s = Some z → truthy (Some s) = true.
Proof. destruct s; [discriminate | reflexivity]. Qed.

(** What one attempt does with a rate-limited reply: sleep, then go on with
    the attempts that are left. *)
Lemma post_attempts_rate_limited (json_loads : string → option json)
    (attempt : nat) (later : list nat) (w : World) (r : Response)
    (rest : list Outcome) (reset : string) (reset_ts : Z) :
  pending w = Reply r :: rest →
  status_code r = 403%Z →
  rate_limit_remaining (headers r) = Some "0" →
  rate_limit_reset (headers r) = Some reset →
  py_int reset = Some reset_ts →
  post_attempts json_loads (attempt :: later) w
  = post_attempts json_loads later
      (sleep (Z.max 1 (reset_ts - now w + 1)) (MkWorld (now w) rest (slept w))).
Proof.
  intros Hpending Hstatus Hremaining Hreset Hint.
  cbn [post_attempts]. unfold urlopen. rewrite Hpending, Hstatus.
  cbn [Z.eqb Pos.eqb andb]. unfold handle_rate_limit.
  rewrite Hremaining, Hreset. cbn [Z.eqb Pos.eqb negb from_option id].
  rewrite (py_int_truthy reset reset_ts Hint), Hint.
  rewrite bool_decide_eq_true_2 by done. reflexivity.
Qed.

(** C3, as amended: on a 403 reply whose rate-limit-remaining header is "0"
    and whose reset header is a timestamp, the client sleeps until one second
    after the reset (one second when the reset is already past) and goes on
    with the next attempt: the rate-limit path uses up one of the three
    attempts, and on the last attempt the result is [failed]. *)
Theorem rate_limit_uses_attempt (json_loads : string → option json)
    (attempt : nat) (later : list nat) (w : World) (r : Response)
    (rest : list Outcome) (reset : string) (reset_ts : Z) :
  pending w = Reply r :: rest →
  status_code r = 403%Z →
  rate_limit_remaining (headers r) = Some "0" →
  rate_limit_reset (headers r) = Some reset →
  py_int reset = Some reset_ts →
  let sleep_s := Z.max 1 (reset_ts - now w + 1) in
  let w' := sleep sleep_s (MkWorld (now w) rest (slept w)) in
  post_attempts json_loads (attempt :: later) w = post_attempts json_loads later w'
  ∧ (reset_ts ≤ now w → sleep_s = 1)%Z
  ∧ (now w < reset_ts → now w' = reset_ts + 1)%Z
  ∧ (later = [] →
     post_attempts json_loads (attempt :: later) w = (Some (JNull, Some "failed"), w')).
Proof.
  intros Hpending Hstatus Hremaining Hreset Hint sleep_s w'.
  pose proof (post_attempts_rate_limited json_loads attempt later w r rest
                reset reset_ts Hpending Hstatus Hremaining Hreset Hint) as Hstep.
  fold sleep_s in Hstep. fold w' in Hstep.
  split; [exact Hstep|]. split; [|split].
  - subst sleep_s. lia.
  - subst w' sleep_s. cbn [sleep now]. lia.
  - intros ->. rewrite Hstep. reflexivity.
Qed.

Lemma rate_limit_uses_attempt_witness :
  let w := MkWorld 1000 [rate_limited_reply "900"; rate_limited_reply "900";
                         rate_limited_reply "900"; ok_reply] [] in
  (gh_post_json parse_braces w
   = post_attempts parse_braces [1; 2]
       (sleep 1 (MkWorld 1000 [rate_limited_reply "900"; rate_limited_reply "900";
                               ok_reply] [])))
  ∧ gh_post_json parse_braces w
    = (Some (JNull, Some "failed"), MkWorld 1003 [ok_reply] [1; 1; 1]%Z).
Proof.
  intros w. split; [|reflexivity].
  apply (rate_limit_uses_attempt parse_braces 0 [1; 2] w (rate_limited "900")
           [rate_limited_reply "900"; rate_limited_reply "900"; ok_reply]
           "900" 900 eq_refl eq_refl eq_refl eq_refl eq_refl).
Defined.

(** C3 as first stated fails: with one attempt left, a rate-limited reply
    ends the loop with [failed]; had the attempt not been used up, the next
    reply would have been read and returned. *)
Lemma rate_limit_retry_counterexample :
  ∃ (json_loads : string → option json) (w : World) (r : Response)
    (rest : list Outcome) (reset : string) (reset_ts : Z),
    pending w = Reply r :: rest
    ∧ status_code r = 403%Z
    ∧ rate_limit_remaining (headers r) = Some "0"
    ∧ rate_limit_reset (headers r) = Some reset
    ∧ py_int reset = Some reset_ts
    ∧ post_attempts json_loads [2] w
      ≠ post_attempts json_loads [2]
          (sleep (Z.max 1 (reset_ts - now w + 1)) (MkWorld (now w) rest (slept w))).
Proof.
  exists parse_braces, (MkWorld 1000 [rate_limited_reply "900"; ok_reply] []),
    (rate_limited "900"), [ok_reply], "900", 900%Z.
  repeat (split; [reflexivity|]).
  vm_compute. discriminate.
Qed.

(** What one attempt does with a reply that is not a rate-limited 403. *)
Lemma post_attempts_reply (json_loads : string → option json)
    (attempt : nat) (later : list nat) (w : World) (r : Response)
    (rest : list Outcome) :
  pending w = Reply r :: rest →
  ¬ (status_code r = 403%Z ∧ rate_limit_remaining (headers r) = Some "0") →
  let s := status_code r in
  let w1 := MkWorld (now w) rest (slept w) in
  post_attempts json_loads (attempt :: later) w
  = if (s =? 200)%Z || (s =? 201)%Z then
      match json_loads (raw r) with
      | Some payload => (Some (payload, None), w1)
      | None => (Some (JNull, Some "invalid_json"), w1)
      end
    else if (s =? 404)%Z then (Some (JNull, Some "not_found"), w1)
    else if (s =? 401)%Z then (Some (JNull, Some "unauthorized"), w1)
    else if (s =? 403)%Z then (Some (JNull, Some "forbidden"), w1)
    else if (500 <=? s)%Z && (attempt <? 2)%nat
    then post_attempts json_loads later (sleep (1 + Z.of_nat attempt) w1)
    else (Some (JNull, Some ("http_" +:+ Z_to_string s)), w1).
Proof.
  intros Hpending Hnot s w1.
  cbn [post_attempts]. unfold urlopen. rewrite Hpending. fold s. fold w1.
  destruct (Z.eqb_spec s 403) as [H403|H403].
  - assert (rate_limit_remaining (headers r) ≠ Some "0") as Hrem by tauto.
    rewrite (bool_decide_eq_false_2 _ Hrem). cbn [andb].
    unfold handle_rate_limit. rewrite H403. cbn [Z.eqb Pos.eqb negb].
    rewrite (bool_decide_eq_false_2 _ Hrem). reflexivity.
  - reflexivity.
Qed.

(** C9, as amended: 401 gives [unauthorized]; 404 gives [not_found]; 200 and
    201 give the parsed payload and no error, or [invalid_json] when the body
    does not parse; 403 gives [forbidden] unless the rate limit is exhausted;
    every other status, 2xx included, gives [http_<status>], at once below 500
    and on the last attempt from 500 up. *)
Theorem status_mapping (json_loads : string → option json)
    (attempt : nat) (later : list nat) (w : World) (r : Response)
    (rest : list Outcome) :
  pending w = Reply r :: rest →
  let s := status_code r in
  let out := (post_attempts json_loads (attempt :: later) w).1 in
  (s = 401 → out = Some (JNull, Some "unauthorized"))%Z
  ∧ (s = 404 → out = Some (JNull, Some "not_found"))%Z
  ∧ (s = 200 ∨ s = 201 →
     ∀ payload, json_loads (raw r) = Some payload → out = Some (payload, None))%Z
  ∧ (s = 200 ∨ s = 201 →
     json_loads (raw r) = None → out = Some (JNull, Some "invalid_json"))%Z
  ∧ (s = 403 → rate_limit_remaining (headers r) ≠ Some "0" →
     out = Some (JNull, Some "forbidden"))%Z
  ∧ (s ∉ [200; 201; 401; 403; 404] → s < 500 ∨ (2 ≤ attempt)%nat →
     out = Some (JNull, Some ("http_" +:+ Z_to_string s)))%Z.
Proof.
  intros Hpending s out. subst out.
  repeat split.
  - intros Hs. rewrite (post_attempts_reply _ _ _ _ _ _ Hpending) by (fold s; lia).
    fold s. by rewrite Hs.
  - intros Hs. rewrite (post_attempts_reply _ _ _ _ _ _ Hpending) by (fold s; lia).
    fold s. by rewrite Hs.
  - intros Hs payload Hload.
    rewrite (post_attempts_reply _ _ _ _ _ _ Hpending) by (fold s; lia).
    fold s. rewrite Hload. by destruct Hs as [-> | ->].
  - intros Hs Hload.
    rewrite (post_attempts_reply _ _ _ _ _ _ Hpending) by (fold s; lia).
    fold s. rewrite Hload. by destruct Hs as [-> | ->].
  - intros Hs Hrem. rewrite (post_attempts_reply _ _ _ _ _ _ Hpending) by tauto.
    fold s. by rewrite Hs.
  - intros Hs Hlast.
    rewrite !not_elem_of_cons in Hs.
    destruct Hs as (H200 & H201 & H401 & H403 & H404 & _).
    rewrite (post_attempts_reply _ _ _ _ _ _ Hpending) by (fold s; tauto).
    fold s.
    rewrite (proj2 (Z.eqb_neq s 200) H200), (proj2 (Z.eqb_neq s 201) H201),
      (proj2 (Z.eqb_neq s 404) H404), (proj2 (Z.eqb_neq s 401) H401),
      (proj2 (Z.eqb_neq s 403) H403).
    cbn [orb].
    destruct Hlast as [Hlow | Hlast].
    + by rewrite (proj2 (Z.leb_gt 500 s) Hlow).
    + rewrite (proj2 (Nat.ltb_ge attempt 2) Hlast). by rewrite andb_false_r.
Qed.

Lemma status_mapping_witness :
  (gh_post_json parse_braces (MkWorld 0 [ok_reply] [])).1 = Some (JObj [], None)
  ∧ (gh_post_json parse_braces (MkWorld 0 [Reply (bare_response 201)] [])).1
    = Some (JNull, Some "invalid_json")
  ∧ (gh_post_json parse_braces (MkWorld 0 [Reply (bare_response 422)] [])).1
    = Some (JNull, Some "http_422").
Proof.
  split; [|split].
  - apply (status_mapping parse_braces 0 [1; 2] (MkWorld 0 [ok_reply] [])
             (MkResponse 200 ∅ "{}") [] eq_refl); [by left | reflexivity].
  - apply (status_mapping parse_braces 0 [1; 2]
             (MkWorld 0 [Reply (bare_response 201)] []) (bare_response 201) []
             eq_refl); [by right | reflexivity].
  - apply (status_mapping parse_braces 0 [1; 2]
             (MkWorld 0 [Reply (bare_response 422)] []) (bare_response 422) []
             eq_refl); [|left; reflexivity].
    rewrite !not_elem_of_cons. repeat (split; [discriminate|]). apply not_elem_of_nil.
Defined.

(** C9 as first stated fails twice: on the last attempt a 403 reply gives
    [forbidden], not [http_403]; and a 204 reply whose body does not parse
    gives [http_204], not [invalid_json]. *)
Lemma status_mapping_counterexample :
  (∃ (json_loads : string → option json) (w : World) (r : Response),
      pending w = [Reply r]
      ∧ ¬ (200 ≤ status_code r < 300)%Z
      ∧ status_code r ≠ 401%Z ∧ status_code r ≠ 404%Z
      ∧ (post_attempts json_loads [2] w).1
        ≠ Some (JNull, Some ("http_" +:+ Z_to_string (status_code r))))
  ∧ (∃ (json_loads : string → option json) (w : World) (r : Response),
      pending w = [Reply r]
      ∧ (200 ≤ status_code r < 300)%Z
      ∧ json_loads (raw r) = None
      ∧ (gh_post_json json_loads w).1 ≠ Some (JNull, Some "invalid_json")).
Proof.
  split.
  - exists parse_braces, (MkWorld 0 [Reply (bare_response 403)] []),
      (bare_response 403).
    split; [reflexivity|]. split; [cbn; lia|]. split; [discriminate|].
    split; [discriminate|]. vm_compute. discriminate.
  - exists parse_braces, (MkWorld 0 [Reply (bare_response 204)] []),
      (bare_response 204).
    split; [reflexivity|]. split; [cbn; lia|]. split; [reflexivity|].
    vm_compute. discriminate.
Qed.

(** ** The matcher *)

Lemma last_before_cons (prev : option ascii) (c : ascii) (taken : list ascii) :
  last_before (Some c) taken = last_before prev (c :: taken).
Proof.
  unfold last_before. destruct taken as [|d taken]; [reflexivity|].
  change (last (c :: d :: taken)) with (last (d :: taken)).
  by destruct (last (d :: taken)) eqn:E; [|by apply last_None in E].
Qed.

(** A successful greedy repetition took a run of characters of the class, at
    least [lo] of them, and the rest of the pattern matched from there. *)
Lemma greedy_inv {R : Type} (p : ascii → bool) (k : option ascii → list ascii → mstate → option R)
    (rest : list ascii) (lo : nat) (hi : option nat) (prev : option ascii)
    (st : mstate) (r : R) :
  greedy p lo hi k prev rest st = Some r →
  ∃ taken rest',
    rest = taken ++ rest'
    ∧ forallb p taken = true
    ∧ lo ≤ length taken
    ∧ k (last_before prev taken) rest' (pushes taken st) = Some r.
Proof.
  revert lo hi prev st.
  induction rest as [|c rest IH]; intros lo hi prev st.
  - cbn [greedy]. destruct lo; [|discriminate]. intros Hk.
    exists [], []. repeat split; [lia | exact Hk].
  - cbn [greedy].
    assert (match lo with O => k prev (c :: rest) st | S _ => None end = Some r →
            ∃ taken rest', c :: rest = taken ++ rest' ∧ forallb p taken = true
              ∧ lo ≤ length taken
              ∧ k (last_before prev taken) rest' (pushes taken st) = Some r) as Hstop.
    { destruct lo; [|discriminate]. intros Hk.
      exists [], (c :: rest). repeat split; [lia | exact Hk]. }
    destruct (hi_pred hi) as [hi'|]; [|exact Hstop].
    destruct (p c) eqn:Hc; [|exact Hstop].
    destruct (greedy p (Nat.pred lo) hi' k (Some c) rest (push c st)) as [r'|] eqn:Hrec;
      [|exact Hstop].
    intros [= <-]. apply IH in Hrec as (taken & rest' & -> & Hall & Hlo & Hk).
    exists (c :: taken), rest'. split; [reflexivity|]. split; [|split].
    + cbn [forallb]. by rewrite Hc, Hall.
    + cbn [length]. lia.
    + by rewrite <- last_before_cons.
Qed.

Lemma consumed_pushes (taken : list ascii) (st : mstate) :
  consumed (pushes taken st) = rev taken ++ consumed st.
Proof.
  revert st. induction taken as [|c taken IH]; intros st; [reflexivity|].
  cbn [pushes foldl]. fold (pushes taken (push c st)). rewrite IH.
  cbn [push consumed rev]. by rewrite <- app_assoc.
Qed.

(** A property of every match holds of everything [finditer] returns. *)
Lemma scan_Forall (P : rmatch → Prop) (pat : list item) :
  (∀ prev rest n m, match_at pat prev rest = Some (n, m) → P m) →
  ∀ rest prev skip, Forall P (scan pat prev rest skip).
Proof.
  intros Hmatch. induction rest as [|c rest IH]; intros prev skip.
  - destruct skip; cbn [scan]; [|constructor].
    destruct (match_at pat prev []) as [[n m]|] eqn:E; [|constructor].
    constructor; [by eapply Hmatch | constructor].
  - destruct skip; cbn [scan]; [|apply IH].
    destruct (match_at pat prev (c :: rest)) as [[n m]|] eqn:E; [|apply IH].
    constructor; [by eapply Hmatch | apply IH].
Qed.

(** A match of the environment-variable pattern starts at an upper-case
    letter and has the shape of a token. *)
Lemma env_match_shape (prev : option ascii) (rest : list ascii) (n : nat) (m : rmatch) :
  match_at env_pattern prev rest = Some (n, m) →
  env_token (whole m) ∧ ∃ c rest', rest = c :: rest' ∧ is_upper_az c = true.
Proof.
  unfold match_at, env_pattern. cbn [mseq].
  destruct (at_word_boundary prev rest); [|discriminate].
  destruct rest as [|c rest]; [discriminate|].
  destruct (is_upper_az c) eqn:Hc; [|discriminate].
  destruct (greedy env_tail 0 None _ (Some c) rest (push c mstart)) as [st|] eqn:Hg;
    [|discriminate].
  intros [= <- <-]. apply greedy_inv in Hg as (taken & rest' & -> & Hall & _ & Hk).
  destruct (at_word_boundary _ rest'); [|discriminate].
  injection Hk as <-. split; [|by eauto].
  rewrite consumed_pushes. cbn [push consumed mstart whole].
  rewrite rev_app_distr, rev_involutive. cbn [rev app string_of_list_ascii env_token].
  by rewrite list_ascii_of_string_of_list_ascii.
Qed.

Lemma findall_env_token (text name : string) :
  name ∈ findall env_pattern text → env_token name.
Proof.
  unfold findall, finditer. intros (m & -> & Hm)%list_elem_of_fmap.
  pose proof (scan_Forall (fun m => env_token (whole m)) env_pattern) as Hall.
  eapply Forall_forall in Hall; [exact Hall| |exact Hm].
  intros prev rest n m' Hmatch. by apply env_match_shape in Hmatch as [? _].
Qed.

Lemma literal_inv {R : Type} (w : list ascii)
    (k : option ascii → list ascii → mstate → option R)
    (prev : option ascii) (rest : list ascii) (st : mstate) (r : R) :
  literal w k prev rest st = Some r →
  ∃ rest', rest = w ++ rest'
           ∧ k (last_before prev w) rest' (pushes w st) = Some r.
Proof.
  revert prev rest st. induction w as [|a w IH]; intros prev rest st; cbn [literal].
  - intros Hk. by exists rest.
  - destruct rest as [|c rest]; [discriminate|].
    destruct (Ascii.eqb_spec a c) as [->|]; [|discriminate].
    intros (rest' & -> & Hk)%IH. exists rest'. split; [reflexivity|].
    by rewrite <- last_before_cons.
Qed.

Lemma alternatives_inv {R : Type} (ws : list string)
    (k : option ascii → list ascii → mstate → option R)
    (prev : option ascii) (rest : list ascii) (st : mstate) (r : R) :
  alternatives ws k prev rest st = Some r →
  ∃ w rest', w ∈ ws
             ∧ rest = list_ascii_of_string w ++ rest'
             ∧ k (last_before prev (list_ascii_of_string w)) rest'
                 (pushes (list_ascii_of_string w) st) = Some r.
Proof.
  induction ws as [|w ws IH]; cbn [alternatives]; [discriminate|].
  destruct (literal (list_ascii_of_string w) k prev rest st) as [r'|] eqn:Hlit.
  - intros [= <-]. apply literal_inv in Hlit as (rest' & -> & Hk).
    exists w, rest'. split; [by left | done].
  - intros (w' & rest' & Hin & Hrest & Hk)%IH.
    exists w', rest'. split; [by right | done].
Qed.

Lemma groups_pushes (taken : list ascii) (st : mstate) :
  groups (pushes taken st) = groups st.
Proof.
  revert st. induction taken as [|c taken IH]; intros st; [reflexivity|].
  cbn [pushes foldl]. fold (pushes taken (push c st)). by rewrite IH.
Qed.

Lemma cur_pushes (taken : list ascii) (st : mstate) :
  cur (pushes taken st) = (fun g => rev taken ++ g) <$> cur st.
Proof.
  revert st. induction taken as [|c taken IH]; intros st.
  - cbn [pushes foldl]. by destruct (cur st).
  - cbn [pushes foldl]. fold (pushes taken (push c st)). rewrite IH.
    cbn [push cur rev]. destruct (cur st) as [g|]; [|reflexivity].
    cbn. by rewrite <- app_assoc.
Qed.

(** Matching the rest of a pattern keeps the groups already closed. *)
Lemma mseq_groups (pat : list item) (prev : option ascii) (rest : list ascii)
    (st st' : mstate) :
  mseq pat prev rest st = Some st' → ∃ more, groups st' = groups st ++ more.
Proof.
  revert prev rest st.
  induction pat as [|it pat IH]; intros prev rest st; cbn [mseq].
  - intros [= <-]. exists []. by rewrite app_nil_r.
  - destruct it as [p|p lo hi|ws| | | | |].
    + destruct rest as [|c rest]; [discriminate|].
      destruct (p c); [|discriminate]. intros Hk. apply IH in Hk. exact Hk.
    + intros (taken & rest' & _ & _ & _ & Hk)%greedy_inv.
      apply IH in Hk. by rewrite groups_pushes in Hk.
    + intros (w & rest' & _ & _ & Hk)%alternatives_inv.
      apply IH in Hk. by rewrite groups_pushes in Hk.
    + destruct (at_word_boundary prev rest); [apply IH | discriminate].
    + destruct (at_bol prev); [apply IH | discriminate].
    + destruct (at_eol rest); [apply IH | discriminate].
    + intros Hk. apply IH in Hk. exact Hk.
    + intros (more & Hmore)%IH. cbn [close_group groups] in Hmore.
      eexists. rewrite Hmore, <- app_assoc. reflexivity.
Qed.

(** The first group of a match of the README pattern is one of the HTTP
    method keywords. *)
Lemma method_match_group (prev : option ascii) (rest : list ascii) (n : nat) (m : rmatch) :
  match_at method_pattern prev rest = Some (n, m) → group 1 m ∈ HTTP_METHODS.
Proof.
  unfold match_at, method_pattern.
  match goal with
  | |- context [Close :: ?after] => remember after as tail eqn:Htail
  end.
  clear Htail.
  destruct (mseq _ prev rest mstart) as [st|] eqn:Hm; [|discriminate].
  intros [= <- <-]. cbn [mseq] in Hm.
  destruct (at_word_boundary prev rest); [|discriminate].
  apply alternatives_inv in Hm as (w & rest' & Hw & _ & Hk).
  cbn [mseq] in Hk.
  apply mseq_groups in Hk as (more & Hgroups).
  cbn [close_group groups] in Hgroups.
  rewrite groups_pushes, cur_pushes in Hgroups.
  cbn [open_group groups cur fmap option_fmap option_map default from_option id app] in Hgroups.
  rewrite app_nil_r, rev_involutive, string_of_list_ascii_of_string in Hgroups.
  unfold group. cbn [captured]. rewrite Hgroups. exact Hw.
Qed.

Lemma finditer_method_group (text : string) (m : rmatch) :
  m ∈ finditer method_pattern text → group 1 m ∈ HTTP_METHODS.
Proof.
  intros Hm. pose proof (scan_Forall (fun m => group 1 m ∈ HTTP_METHODS)
                           method_pattern method_match_group
                           (list_ascii_of_string text) None 0) as Hall.
  by eapply Forall_forall in Hall.
Qed.

Lemma upper_method (w : string) : w ∈ HTTP_METHODS → upper w = w.
Proof.
  unfold HTTP_METHODS. rewrite !elem_of_cons, elem_of_nil.
  intros [->|[->|[->|[->|[->|[->|[->|[]]]]]]]]; reflexivity.
Qed.

(** ** Environment variables *)

Lemma rstrip_by_empty (p : ascii → bool) (s : string) :
  rstrip_by p s = "" → forallb p (list_ascii_of_string s) = true.
Proof.
  induction s as [|c s IH]; [reflexivity|]. cbn [rstrip_by list_ascii_of_string forallb].
  destruct (rstrip_by p s); [|discriminate].
  destruct (p c); [|discriminate]. intros _. by rewrite IH.
Qed.

Lemma lstrip_by_all (p : ascii → bool) (s : string) :
  forallb p (list_ascii_of_string (lstrip_by p s)) = true →
  forallb p (list_ascii_of_string s) = true.
Proof.
  induction s as [|c s IH]; [reflexivity|]. cbn [lstrip_by].
  destruct (p c) eqn:Hc; [|done].
  intros H. cbn [list_ascii_of_string forallb]. by rewrite Hc, IH.
Qed.

Lemma blank_all_space (text : string) :
  blank (Some text) = true → forallb is_space (list_ascii_of_string text) = true.
Proof.
  unfold blank, strip. intros H. apply lstrip_by_all, rstrip_by_empty.
  by destruct (rstrip_by is_space (lstrip_by is_space text)).
Qed.

Lemma space_not_upper (c : ascii) : is_space c = true → is_upper_az c = false.
Proof. destruct c as [[] [] [] [] [] [] [] []]; vm_compute; congruence. Qed.

Lemma scan_env_spaces (rest : list ascii) (prev : option ascii) (skip : nat) :
  forallb is_space rest = true → scan env_pattern prev rest skip = [].
Proof.
  revert prev skip. induction rest as [|c rest IH]; intros prev skip Hall.
  - destruct skip; cbn [scan]; [|reflexivity].
    destruct (match_at env_pattern prev []) as [[n m]|] eqn:E; [|reflexivity].
    apply env_match_shape in E as (_ & ? & ? & [=] & _).
  - cbn [forallb] in Hall. apply andb_true_iff in Hall as [Hc Hall].
    destruct skip; cbn [scan]; [|by apply IH].
    destruct (match_at env_pattern prev (c :: rest)) as [[n m]|] eqn:E; [|by apply IH].
    apply env_match_shape in E as (_ & c' & ? & [= <- <-] & Hup).
    by rewrite (space_not_upper c Hc) in Hup.
Qed.

(** A blank README has no token, so the guard at the top of
    [extract_env_vars] changes nothing. *)
Lemma findall_env_blank (text : string) :
  blank (Some text) = true → findall env_pattern text = [].
Proof.
  intros H. unfold findall, finditer.
  by rewrite (scan_env_spaces _ None 0 (blank_all_space text H)).
Qed.

Lemma sorted_nil : sorted [] = [].
Proof. reflexivity. Qed.

(** The names [extract_env_vars] returns, as a function of the set of tokens. *)
Lemma extract_env_vars_names (readme_path : option string) (text : string) :
  env_name <$> extract_env_vars readme_path (Some text)
  = sorted (elements (list_to_set
      (filter (fun name => keep_env name = true)
              (elements (list_to_set (findall env_pattern text) : gset string)))
      : gset string)).
Proof.
  unfold extract_env_vars. destruct (blank (Some text)) eqn:Hblank.
  - rewrite (findall_env_blank text Hblank). reflexivity.
  - cbn [default from_option id]. rewrite <- list_fmap_compose.
    apply list_fmap_id.
Qed.

Lemma keep_env_spec (name : string) :
  keep_env name = true
  ↔ name = "PORT" ∨ endswith "_SERVICE_URL" name = true
    ∨ endswith "_URL" name = true ∨ endswith "_TOKEN" name = true.
Proof.
  unfold keep_env. rewrite !orb_true_iff, String.eqb_eq. tauto.
Qed.

Lemma elem_of_env_names (readme_path : option string) (text name : string) :
  name ∈ env_name <$> extract_env_vars readme_path (Some text)
  ↔ name ∈ findall env_pattern text ∧ keep_env name = true.
Proof.
  rewrite extract_env_vars_names. unfold sorted.
  rewrite merge_sort_Permutation, elem_of_elements, elem_of_list_to_set,
    list_elem_of_filter, elem_of_elements, elem_of_list_to_set.
  tauto.
Qed.

(** ** Endpoints *)

Lemma appends_refl (P : Endpoint → Prop) acc : appends P acc acc.
Proof. exists []. by rewrite app_nil_r. Qed.

Lemma appends_trans (P : Endpoint → Prop) acc1 acc2 acc3 :
  appends P acc1 acc2 → appends P acc2 acc3 → appends P acc1 acc3.
Proof.
  intros (m1 & H1 & F1) (m2 & H2 & F2). exists (m1 ++ m2).
  rewrite H2, H1, app_assoc. split; [done | by apply Forall_app].
Qed.

Lemma endpoints_inv_add (endpoints : list Endpoint) (seen : gset (string * string))
    (e : Endpoint) :
  endpoints_inv (endpoints, seen) → endpoint_key e ∉ seen →
  endpoints_inv (endpoints ++ [e], {[endpoint_key e]} ∪ seen).
Proof.
  intros [Hseen Hnd] Hnew. unfold endpoints_inv in *; cbn [fst snd] in *.
  rewrite fmap_app. cbn [fmap list_fmap]. split.
  - intros k. rewrite elem_of_union, elem_of_singleton, elem_of_app,
      list_elem_of_singleton, Hseen. tauto.
  - apply NoDup_app. split; [done|]. split; [|apply NoDup_singleton].
    intros k Hk Hk'. apply list_elem_of_singleton in Hk' as ->.
    apply Hnew. by apply Hseen.
Qed.

Lemma openapi_step_ok (openapi_path openapi_text : option string) acc (m : rmatch) :
  endpoints_inv acc →
  endpoints_inv (openapi_step openapi_path openapi_text acc m)
  ∧ appends (fun e => ep_source e = "openapi" ∧ ep_method e = "ANY")
            acc (openapi_step openapi_path openapi_text acc m).
Proof.
  destruct acc as [endpoints seen]. intros Hinv. unfold openapi_step.
  destruct (startswith "/" (strip (group 1 m))); cbn [negb];
    [|split; [done | apply appends_refl]].
  case_bool_decide as Hin; [split; [done | apply appends_refl]|].
  split.
  - by apply (endpoints_inv_add endpoints seen
                (MkEndpoint "ANY" (strip (group 1 m)) "openapi" "high" _)).
  - eexists. split; [reflexivity|]. by repeat constructor.
Qed.

Lemma readme_step_ok (readme_path readme_text : option string) acc (m : rmatch) :
  endpoints_inv acc →
  endpoints_inv (readme_step readme_path readme_text acc m)
  ∧ appends (fun e => ep_source e = "readme" ∧ ep_method e = upper (group 1 m))
            acc (readme_step readme_path readme_text acc m).
Proof.
  destruct acc as [endpoints seen]. intros Hinv. unfold readme_step.
  case_bool_decide as Hin; [split; [done | apply appends_refl]|].
  split.
  - by apply (endpoints_inv_add endpoints seen
                (MkEndpoint (upper (group 1 m)) (group 2 m) "readme" "medium" _)).
  - eexists. split; [reflexivity|]. by repeat constructor.
Qed.

Lemma openapi_scan_ok (openapi_path openapi_text : option string) acc :
  endpoints_inv acc →
  endpoints_inv (openapi_scan openapi_path openapi_text acc)
  ∧ appends (fun e => ep_source e = "openapi" ∧ ep_method e = "ANY")
            acc (openapi_scan openapi_path openapi_text acc).
Proof.
  unfold openapi_scan. destruct (blank openapi_text);
    [intros; split; [done | apply appends_refl]|].
  generalize (finditer openapi_pattern (default "" openapi_text)).
  intros ms. revert acc.
  induction ms as [|m ms IH]; intros acc Hinv;
    [split; [done | apply appends_refl]|].
  cbn [foldl].
  destruct (openapi_step_ok openapi_path openapi_text acc m Hinv) as [Hinv' Happ].
  destruct (IH _ Hinv') as [Hinv'' Happ'].
  split; [done | by eapply appends_trans].
Qed.

Lemma readme_scan_ok (P : rmatch → Prop) (readme_path readme_text : option string) acc :
  (∀ m, m ∈ finditer method_pattern (default "" readme_text) → P m) →
  endpoints_inv acc →
  endpoints_inv (readme_scan readme_path readme_text acc)
  ∧ appends (fun e => ep_source e = "readme" ∧ ∃ m, P m ∧ ep_method e = upper (group 1 m))
            acc (readme_scan readme_path readme_text acc).
Proof.
  unfold readme_scan. destruct (blank readme_text);
    [intros; split; [done | apply appends_refl]|].
  generalize (finditer method_pattern (default "" readme_text)).
  intros ms. revert acc.
  induction ms as [|m ms IH]; intros acc HP Hinv;
    [split; [done | apply appends_refl]|].
  cbn [foldl].
  destruct (readme_step_ok readme_path readme_text acc m Hinv) as [Hinv' Happ].
  destruct (IH (readme_step readme_path readme_text acc m)) as [Hinv'' Happ'];
    [intros m' Hm'; apply HP; by right | done |].
  split; [done|]. eapply appends_trans; [|exact Happ'].
  destruct Happ as (more & Hmore & Hall). exists more. split; [done|].
  eapply Forall_impl; [exact Hall|]. intros e [Hsrc Hmeth].
  split; [done|]. exists m. split; [apply HP; by left | done].
Qed.

Lemma endpoints_inv_init : endpoints_inv ([], ∅).
Proof. split; cbn [fst snd]; [set_solver | constructor]. Qed.

Lemma filter_none {A : Type} (P : A → Prop) `{∀ x, Decision (P x)} (l : list A) :
  Forall (fun x => ¬ P x) l → filter P l = [].
Proof.
  induction 1 as [|x l Hx _ IH]; [reflexivity|].
  by rewrite filter_cons_False.
Qed.


(** The two scans of [extract_endpoints], one after the other. *)
Lemma extract_endpoints_scans
    (readme_path readme_text openapi_path openapi_text : option string) :
  let from_openapi := (openapi_scan openapi_path openapi_text ([], ∅)).1 in
  let out := extract_endpoints readme_path readme_text openapi_path openapi_text in
  NoDup (endpoint_key <$> out)
  ∧ Forall (fun e => ep_source e = "openapi" ∧ ep_method e = "ANY") from_openapi
  ∧ ∃ from_readme,
      out = from_openapi ++ from_readme
      ∧ Forall (fun e => ep_source e = "readme" ∧ ep_method e ∈ HTTP_METHODS)
               from_readme.
Proof.
  intros from_openapi out. subst from_openapi out. unfold extract_endpoints.
  destruct (openapi_scan_ok openapi_path openapi_text ([], ∅) endpoints_inv_init)
    as [Hinv (more & Hmore & Hall)].
  destruct (readme_scan_ok (fun m => group 1 m ∈ HTTP_METHODS)
              readme_path readme_text
              (openapi_scan openapi_path openapi_text ([], ∅))
              (finditer_method_group _) Hinv)
    as [[_ Hnd] (more' & Hmore' & Hall')].
  split; [exact Hnd|]. split.
  - cbn [fst app] in Hmore. by rewrite Hmore.
  - exists more'. split; [exact Hmore'|].
    eapply Forall_impl; [exact Hall'|]. intros e (Hsrc & m & Hm & Hmeth).
    split; [done|]. by rewrite Hmeth, (upper_method _ Hm).
Qed.



(** The two sources never collide: an OpenAPI-derived entry has method [ANY],
    a README-derived entry has the method keyword that was matched. *)
Remark endpoint_sources_disjoint
    (readme_path readme_text openapi_path openapi_text : option string)
    (e e' : Endpoint) :
  e ∈ extract_endpoints readme_path readme_text openapi_path openapi_text →
  e' ∈ extract_endpoints readme_path readme_text openapi_path openapi_text →
  ep_source e = "openapi" → ep_source e' = "readme" →
  ep_method e = "ANY" ∧ ep_method e' ∈ HTTP_METHODS
  ∧ endpoint_key e ≠ endpoint_key e'.
Proof.
  destruct (extract_endpoints_scans readme_path readme_text openapi_path openapi_text)
    as (_ & Hopenapi & from_readme & -> & Hreadme).
  rewrite Forall_forall in Hopenapi. rewrite Forall_forall in Hreadme.
  intros [He|He]%elem_of_app [He'|He']%elem_of_app Hsrc Hsrc'.
  - destruct (Hopenapi e' He') as [Hs _]. congruence.
  - destruct (Hopenapi e He) as [_ Hm]. destruct (Hreadme e' He') as [_ Hm'].
    split; [done|]. split; [done|].
    unfold endpoint_key. rewrite Hm. intros [= Heq _]. rewrite <- Heq in Hm'.
    revert Hm'. unfold HTTP_METHODS. rewrite !elem_of_cons, elem_of_nil.
    intros [?|[?|[?|[?|[?|[?|[?|[]]]]]]]]; discriminate.
  - destruct (Hreadme e He) as [Hs _]. congruence.
  - destruct (Hreadme e He) as [Hs _]. congruence.
Qed.



Lemma endpoint_sources_disjoint_witness :
  ep_method users_endpoint = "ANY"
  ∧ ep_method users_readme_endpoint ∈ HTTP_METHODS
  ∧ endpoint_key users_endpoint ≠ endpoint_key users_readme_endpoint.
Proof.
  apply (endpoint_sources_disjoint (Some "README.md") users_readme
           (Some "openapi.yaml") users_openapi);
    [vm_compute; by left | vm_compute; right; by left | reflexivity | reflexivity].
Defined.

(** ** Repository list loader *)

Lemma contains_char_cons (c d : ascii) (s : string) :
  contains (String c "") (String d s)
  = Ascii.eqb d c || contains (String c "") s.
Proof.
  cbn [contains String.prefix].
  destruct (ascii_dec c d) as [->|Hne].
  - rewrite Ascii.eqb_refl. by destruct s.
  - destruct (Ascii.eqb_spec d c) as [->|]; [done|]. reflexivity.
Qed.

Lemma contains_char_nil (c : ascii) : contains (String c "") "" = false.
Proof. reflexivity. Qed.

(** [split_once] cuts at the first separator. *)
Lemma split_once_Some (sep : ascii) (s o r : string) :
  split_once sep s = Some (o, r)
  ↔ s = o +:+ String sep r ∧ contains (String sep "") o = false.
Proof.
  revert o. induction s as [|c s IH]; intros o; cbn [split_once].
  - split; [discriminate|]. intros [H _]. by destruct o.
  - destruct (Ascii.eqb_spec c sep) as [->|Hne].
    + split.
      * intros [= <- <-]. by split.
      * intros [Hs Hno]. destruct o as [|d o]; [by injection Hs as ->|].
        injection Hs as <- _. rewrite contains_char_cons, Ascii.eqb_refl in Hno.
        discriminate.
    + destruct (split_once sep s) as [[a b]|] eqn:E.
      * split.
        -- intros [= <- <-]. destruct (proj1 (IH a) eq_refl) as [-> Hno].
           split; [reflexivity|]. rewrite contains_char_cons, Hno.
           by destruct (Ascii.eqb_spec c sep).
        -- intros [Hs Hno]. destruct o as [|d o]; [by injection Hs|].
           injection Hs as <- ->. rewrite contains_char_cons in Hno.
           apply orb_false_iff in Hno as [_ Hno].
           assert (Some (a, b) = Some (o, r)) as [= -> ->]; [|done].
           by apply IH.
      * split; [discriminate|]. intros [Hs Hno].
        destruct o as [|d o]; [by injection Hs|].
        injection Hs as <- ->. rewrite contains_char_cons in Hno.
        apply orb_false_iff in Hno as [_ Hno].
        assert (@None (string * string) = Some (o, r)) as [=]. by apply IH.
Qed.

Lemma split_once_None (sep : ascii) (s : string) :
  split_once sep s = None ↔ contains (String sep "") s = false.
Proof.
  induction s as [|c s IH]; cbn [split_once]; [done|].
  rewrite contains_char_cons.
  destruct (Ascii.eqb_spec c sep) as [->|Hne]; [done|]. cbn [orb].
  rewrite <- IH. destruct (split_once sep s) as [[a b]|]; [|done].
  split; discriminate.
Qed.

Lemma truthy_Some (s : string) : truthy (Some s) = true ↔ s ≠ "".
Proof. destruct s; [split; [discriminate | done] | done]. Qed.

(** One line adds one spec when it is accepted, one warning when it is
    looked at and not accepted, and nothing otherwise. *)
Lemma load_step_line (specs : list RepoSpec) (warnings : list string) (raw_line : string) :
  ∃ new_specs new_warnings,
    load_step (specs, warnings) raw_line
    = (specs ++ new_specs, warnings ++ new_warnings)
    ∧ length new_specs + length new_warnings
      = (if considered raw_line then 1 else 0)
    ∧ ∀ spec, spec ∈ new_specs ↔ accepts raw_line spec.
Proof.
  unfold load_step, accepts, considered.
  set (line := strip raw_line).
  destruct (truthy (Some line)) eqn:Hline; cbn [negb orb andb].
  2:{ exists [], []. rewrite !app_nil_r. split; [done|]. split; [done|].
      intros spec. split; [by intros ?%elem_of_nil|].
      by intros (o & r & [=] & _). }
  destruct (startswith "#" line) eqn:Hcomment; cbn [negb].
  { exists [], []. rewrite !app_nil_r. split; [done|]. split; [done|].
    intros spec. split; [by intros ?%elem_of_nil|].
    by intros (o & r & [=] & _). }
  destruct (contains "/" line) eqn:Hslash; cbn [negb].
  2:{ eexists [], [_]. rewrite app_nil_r. split; [reflexivity|]. split; [done|].
      intros spec. split; [by intros ?%elem_of_nil|].
      intros (o & r & _ & Hsplit & Hno & _).
      assert (split_once "/" line = None) as Hnone by by apply split_once_None.
      assert (split_once "/" line = Some (o, r)) as Hsome by by apply split_once_Some.
      congruence. }
  destruct (split_once "/" line) as [[o r]|] eqn:Hsplit.
  2:{ apply split_once_None in Hsplit. congruence. }
  destruct (truthy (Some (strip o)) && truthy (Some (strip r))) eqn:Hboth.
  - apply andb_true_iff in Hboth as [Ho%truthy_Some Hr%truthy_Some].
    eexists [_], []. rewrite app_nil_r. split; [reflexivity|]. split; [done|].
    intros spec. rewrite list_elem_of_singleton. split.
    + intros ->. exists o, r. apply split_once_Some in Hsplit as [? ?]. done.
    + intros (o' & r' & _ & Hs & Hno & _ & _ & ->).
      assert (split_once "/" line = Some (o', r')) as Hsome by by apply split_once_Some.
      congruence.
  - eexists [], [_]. rewrite app_nil_r. split; [reflexivity|]. split; [done|].
    intros spec. split; [by intros ?%elem_of_nil|].
    intros (o' & r' & _ & Hs & Hno & Ho & Hr & _).
    assert (split_once "/" line = Some (o', r')) as Hsome by by apply split_once_Some.
    assert (o' = o ∧ r' = r) as [-> ->] by (split; congruence).
    apply truthy_Some in Ho, Hr. by rewrite Ho, Hr in Hboth.
Qed.

Lemma load_fold (lines : list string) (specs : list RepoSpec) (warnings : list string) :
  ∃ new_specs new_warnings,
    foldl load_step (specs, warnings) lines
    = (specs ++ new_specs, warnings ++ new_warnings)
    ∧ length new_specs + length new_warnings
      = length (filter (fun raw_line => considered raw_line = true) lines)
    ∧ ∀ spec, spec ∈ new_specs ↔ ∃ raw_line, raw_line ∈ lines ∧ accepts raw_line spec.
Proof.
  revert specs warnings. induction lines as [|raw_line lines IH]; intros specs warnings.
  - exists [], []. rewrite !app_nil_r. split; [done|]. split; [done|].
    intros spec. split; [by intros ?%elem_of_nil|].
    by intros (? & ?%elem_of_nil & _).
  - cbn [foldl].
    destruct (load_step_line specs warnings raw_line) as (s1 & w1 & -> & Hlen1 & Hin1).
    destruct (IH (specs ++ s1) (warnings ++ w1)) as (s2 & w2 & -> & Hlen2 & Hin2).
    exists (s1 ++ s2), (w1 ++ w2). rewrite !app_assoc. split; [done|]. split.
    + rewrite !length_app, filter_cons.
      destruct (considered raw_line); [|case_decide; [done | lia]].
      rewrite decide_True by done. cbn [length]. lia.
    + intros spec. rewrite elem_of_app, Hin1, Hin2. split.
      * intros [H | (raw' & Hraw' & H)].
        -- exists raw_line. split; [by left | done].
        -- exists raw'. split; [by right | done].
      * intros (raw' & [->|Hraw']%elem_of_cons & H); [by left|].
        right. by exists raw'.
Qed.

(** C6, as amended: the loader yields a RepoSpec exactly for the lines that,
    once stripped, are not blank, are not comments, and contain a [/] with a
    non-blank owner before the first [/] and a non-blank repo name after it
    (further [/] stay in the repo name); every other non-blank, non-comment
    line yields a warning and no RepoSpec. *)
Theorem load_repo_list_accepts (lines : list string) :
  let specs := (load_repo_list lines).1 in
  let warnings := (load_repo_list lines).2 in
  (∀ spec, spec ∈ specs ↔ ∃ raw_line, raw_line ∈ lines ∧ accepts raw_line spec)
  ∧ length specs + length warnings
    = length (filter (fun raw_line => considered raw_line = true) lines)
  ∧ Forall (fun spec => owner spec ≠ "" ∧ repo spec ≠ "") specs.
Proof.
  intros specs warnings. subst specs warnings. unfold load_repo_list.
  destruct (load_fold lines [] []) as (s & w & -> & Hlen & Hin).
  cbn [fst snd app]. split; [exact Hin|]. split; [exact Hlen|].
  apply Forall_forall. intros spec (raw & _ & o & r & _ & _ & _ & Ho & Hr & ->)%Hin.
  by split.
Qed.

(** C6 as first stated fails: a line with two [/] is not skipped, its repo
    name keeps the second one. *)
Lemma load_repo_list_counterexample :
  ∃ raw_line,
    count_char "/" raw_line ≠ 1
    ∧ load_repo_list [raw_line] = ([MkRepoSpec "acme" "web/api"], []).
Proof. exists "acme/web/api". split; [by vm_compute | reflexivity]. Qed.

(** ** Derivation and truncation *)

Lemma derived_build_entry container_str spec repo_node :
  derived (build_entry container_str spec repo_node) = derive spec repo_node.
Proof. reflexivity. Qed.






(** ** One record per repository *)























(** ** The scenarios of the specification, evaluated *)

Example env_vars_scenario :
  env_name <$> extract_env_vars (Some "README.md")
                 (Some "Set PAYMENTS_SERVICE_URL and AUTH_TOKEN, then AUTH_TOKEN again.")
  = ["AUTH_TOKEN"; "PAYMENTS_SERVICE_URL"].
Proof. vm_compute. reflexivity. Qed.

Example findall_env_tokens :
  findall env_pattern "ABCdef FOO Bar BAZ_1 _X X_ 9A A9 MY-API_URL"
  = ["FOO"; "BAZ_1"; "X_"; "A9"; "MY"; "API_URL"].
Proof. vm_compute. reflexivity. Qed.

Example depends_on_scenario :
  let env_vars := extract_env_vars None (Some "PAYMENTS_SERVICE_URL USER_DATA_SERVICE_URL") in
  (dep_target <$> infer_depends_on (MkRepoSpec "acme" "payments-service") env_vars None None,
   dep_target <$> infer_depends_on (MkRepoSpec "acme" "web") env_vars None None)
  = (["user-data-service"], ["payments-service"; "user-data-service"]).
Proof. vm_compute. reflexivity. Qed.

Example openapi_matches :
  group 1 <$> finditer openapi_pattern
                (String "010" ("/a:" +:+ String "010" ("     /deep:" +:+ String "010"
                   ("  /b/{id}:  " +:+ String "010" "  /c: x"))))
  = ["/a"; "/b/{id}"].
Proof. vm_compute. reflexivity. Qed.

Example readme_matches :
  (fun m => (group 1 m, group 2 m))
  <$> finditer method_pattern "GET /users, POST `/items/{id}`; get /x PUT/y DELETE  /z."
  = [("GET", "/users"); ("POST", "/items/{id}"); ("DELETE", "/z.")].
Proof. vm_compute. reflexivity. Qed.

Example repo_kind_scenarios :
  (repo_kind_for (MkRepoSpec "acme" "my-INFRA") None (Some "A service."),
   repo_kind_for (MkRepoSpec "acme" "infra-tests") None None,
   repo_kind_for (MkRepoSpec "acme" "web") (Some "Go") (Some "Hello."),
   repo_kind_for (MkRepoSpec "acme" "web") None None)
  = ("infra", "tests", "service", "unknown").
Proof. vm_compute. reflexivity. Qed.

Example loader_scenario :
  load_repo_list ["acme/pay"; "  # a comment"; ""; "noslash"; "/x"; " o / r "]
  = ([MkRepoSpec "acme" "pay"; MkRepoSpec "o" "r"],
     ["Skipping invalid line (expected owner/repo): noslash";
      "Skipping invalid line (blank owner or repo): /x"]).
Proof. vm_compute. reflexivity. Qed.

Example rate_limit_scenario :
  gh_post_json parse_braces (MkWorld 1000 [rate_limited_reply "900"; ok_reply] [])
  = (Some (JObj [], None), MkWorld 1001 [] [1%Z]).
Proof. vm_compute. reflexivity. Qed.

Example server_error_retries :
  gh_post_json parse_braces
    (MkWorld 0 [Reply (bare_response 502); URLError; Reply (bare_response 503)] [])
  = (Some (JNull, Some "http_503"), MkWorld 3 [] [1%Z; 2%Z]).
Proof. vm_compute. reflexivity. Qed.

Example py_int_cases :
  py_int <$> [" 12 "; "-7"; "1_000"; "007"; "_1"; "1__0"; ""; "0x1"; "+ 5"]
  = [Some 12%Z; Some (-7)%Z; Some 1000%Z; Some 7%Z; None; None; None; None; None].
Proof. vm_compute. reflexivity. Qed.

Example normaliser_scenario :
  let specs := [MkRepoSpec "acme" "web"; MkRepoSpec "acme" "gone";
                MkRepoSpec "acme" "broken"] in
  match main parse_sample (fun _ => "") specs "token" 20 (MkWorld 0 [ok_reply] []) with
  | (Some res, _) =>
      ((fun rec => match rec with
                   | ErrorRecord name error => (name, error)
                   | FullRecord e => ("entry", repo_kind (derived e))
                   end) <$> repos res,
       (fun edge => (edge_from edge, edge_to edge)) <$> dependency_edges res)
      = ([("entry", "service"); ("acme/gone", "not_found"); ("acme/broken", "boom")],
         [("web", "auth-service")])
  | (None, _) => False
  end.
Proof. vm_compute. reflexivity. Qed.

Example dropped_connection :
  gh_post_json parse_braces (MkWorld 0 [URLError; Uncaught; ok_reply] [])
  = (None, MkWorld 1 [ok_reply] [1%Z]).
Proof. vm_compute. reflexivity. Qed.

(** ** The HTTP client: bounds, provenance, retries *)

Lemma total_app (l k : list Z) : total (l ++ k) = (total l + total k)%Z.
Proof. unfold total. induction l as [|d l IH]; simpl; [done | lia]. Qed.

(** [handle_rate_limit] returns the world as it was or after one sleep of at
    least a second. *)
Lemma handle_rate_limit_cases (status : Z) (h : gmap string string) (w : World) :
  handle_rate_limit status h w = w
  ∨ ∃ d, (1 ≤ d)%Z ∧ handle_rate_limit status h w = sleep d w.
Proof.
  unfold handle_rate_limit.
  destruct (negb (status =? 403)%Z); [by left|].
  destruct (bool_decide _ && truthy _); [|by left].
  destruct (py_int _) as [reset_ts|]; [|by left].
  right. eexists. split; [|reflexivity]. lia.
Qed.

(** What the attempts do to the world: they take replies off the front of
    the pending ones, at most one per attempt, and only add sleeps of at
    least a second, by which the clock advances. *)
Lemma post_attempts_world (json_loads : string → option json)
    (attempts : list nat) (w : World) :
  ∃ used sleeps,
    pending w = used ++ pending (post_attempts json_loads attempts w).2
    ∧ length used ≤ length attempts
    ∧ slept (post_attempts json_loads attempts w).2 = slept w ++ sleeps
    ∧ Forall (fun d => (1 ≤ d)%Z) sleeps
    ∧ now (post_attempts json_loads attempts w).2 = (now w + total sleeps)%Z.
Proof.
  revert w. induction attempts as [|attempt later IH]; intros w.
  { exists [], []. cbn. rewrite app_nil_r. repeat split; [lia | constructor | lia]. }
  assert (∀ (used0 : list Outcome) (sleeps0 : list Z) (w0 : World),
            pending w = used0 ++ pending w0 → length used0 ≤ 1 →
            slept w0 = slept w ++ sleeps0 → Forall (fun d => (1 ≤ d)%Z) sleeps0 →
            now w0 = (now w + total sleeps0)%Z →
            ∃ used sleeps,
              pending w = used ++ pending (post_attempts json_loads later w0).2
              ∧ length used ≤ S (length later)
              ∧ slept (post_attempts json_loads later w0).2 = slept w ++ sleeps
              ∧ Forall (fun d => (1 ≤ d)%Z) sleeps
              ∧ now (post_attempts json_loads later w0).2 = (now w + total sleeps)%Z)
    as Hnext.
  { intros used0 sleeps0 w0 Hp Hl Hs Hf Hn.
    destruct (IH w0) as (used & sleeps & Hp' & Hl' & Hs' & Hf' & Hn').
    exists (used0 ++ used), (sleeps0 ++ sleeps).
    rewrite <- app_assoc, <- Hp', Hs', Hs, <- app_assoc, Hn', Hn, total_app, length_app.
    repeat split; [done | lia | by apply Forall_app | lia]. }
  assert (∀ (used0 : list Outcome) (sleeps0 : list Z) (w0 : World)
            (res : option result),
            pending w = used0 ++ pending w0 → length used0 ≤ 1 →
            slept w0 = slept w ++ sleeps0 → Forall (fun d => (1 ≤ d)%Z) sleeps0 →
            now w0 = (now w + total sleeps0)%Z →
            ∃ used sleeps,
              pending w = used ++ pending (res, w0).2
              ∧ length used ≤ S (length later)
              ∧ slept (res, w0).2 = slept w ++ sleeps
              ∧ Forall (fun d => (1 ≤ d)%Z) sleeps
              ∧ now (res, w0).2 = (now w + total sleeps)%Z)
    as Hstop.
  { intros used0 sleeps0 w0 res Hp Hl Hs Hf Hn. exists used0, sleeps0.
    cbn [snd]. repeat split; [done | lia | done | done | done]. }
  cbn [post_attempts length]. unfold urlopen.
  destruct (pending w) as [|o rest] eqn:Hpending.
  - (* no reply left: the connection fails *)
    destruct (attempt <? 2).
    + apply (Hnext [] [(1 + Z.of_nat attempt)%Z]); cbn;
        [done | lia | done | repeat constructor; lia | lia].
    + apply (Hstop [] []); cbn; [done | lia | by rewrite app_nil_r | constructor | lia].
  - destruct o as [|r|].
    3:{ apply (Hstop [Uncaught] []); cbn;
          [done | lia | by rewrite app_nil_r | constructor | lia]. }
    + destruct (attempt <? 2).
      * apply (Hnext [URLError] [(1 + Z.of_nat attempt)%Z]); cbn;
          [done | lia | done | repeat constructor; lia | lia].
      * apply (Hstop [URLError] []); cbn;
          [done | lia | by rewrite app_nil_r | constructor | lia].
    + set (w1 := MkWorld (now w) rest (slept w)).
      set (w2 := if (status_code r =? 403)%Z
                 then handle_rate_limit (status_code r) (headers r) w1 else w1).
      assert (∃ sleeps0, pending w2 = rest ∧ slept w2 = slept w ++ sleeps0
                         ∧ Forall (fun d => (1 ≤ d)%Z) sleeps0
                         ∧ now w2 = (now w + total sleeps0)%Z)
        as (sleeps0 & Hp2 & Hs2 & Hf2 & Hn2).
      { subst w2. destruct (status_code r =? 403)%Z.
        - destruct (handle_rate_limit_cases (status_code r) (headers r) w1)
            as [-> | (d & Hd & ->)].
          + exists []. cbn. rewrite app_nil_r. repeat split; [constructor | lia].
          + exists [d]. cbn. repeat split; [by repeat constructor | lia].
        - exists []. cbn. rewrite app_nil_r. repeat split; [constructor | lia]. }
      assert (Reply r :: rest = [Reply r] ++ pending w2) as Hp by by rewrite Hp2.
      repeat match goal with
             | |- context [if ?b then _ else _] => destruct b
             | |- context [match json_loads ?x with _ => _ end] =>
                 destruct (json_loads x)
             end;
        try (apply (Hstop [Reply r] sleeps0); cbn [length]; [done | lia | done..]);
        try (apply (Hnext [Reply r] sleeps0); cbn [length]; [done | lia | done..]).
      all: apply (Hnext [Reply r] (sleeps0 ++ [(1 + Z.of_nat attempt)%Z])).
      all: cbn [length sleep pending slept now].
      all: [> done | lia | by rewrite Hs2, app_assoc
        | apply Forall_app; split; [done | repeat constructor; lia]
        | rewrite Hn2, total_app; cbn; lia].
Qed.

(** X2: one call of [gh_post_json] takes at most three replies, in the order
    they arrive, and leaves the others pending; it never moves the clock back:
    what it adds to the sleep log are sleeps of at least one second, and the
    clock advances by their sum. *)
Theorem gh_post_json_bounded (json_loads : string → option json) (w : World) :
  ∃ used sleeps,
    pending w = used ++ pending (gh_post_json json_loads w).2
    ∧ length used ≤ 3
    ∧ slept (gh_post_json json_loads w).2 = slept w ++ sleeps
    ∧ Forall (fun d => (1 ≤ d)%Z) sleeps
    ∧ now (gh_post_json json_loads w).2 = (now w + total sleeps)%Z.
Proof. apply (post_attempts_world json_loads (seq 0 3) w). Qed.

Lemma explains_further (json_loads : string → option json) (o : Outcome)
    (replies : list Outcome) (res : result) :
  explains json_loads replies res → explains json_loads (o :: replies) res.
Proof.
  destruct res as [payload [err|]]; cbn [explains].
  - intros [Hnull Hcause]. split; [done|].
    destruct Hcause as [H|[H|[[H (r & Hr & Hrest)]|[[H (r & Hr & Hrest)]|
                       [[H (r & Hr & Hrest)]|[[H (r & Hr & Hrest)]|(r & Hr & Hrest)]]]]]].
    + by left.
    + right; by left.
    + right; right; left. split; [done|]. exists r. split; [by right | done].
    + right; right; right; left. split; [done|]. exists r. split; [by right | done].
    + right; right; right; right; left. split; [done|]. exists r.
      split; [by right | done].
    + right; right; right; right; right; left. split; [done|]. exists r.
      split; [by right | done].
    + right; right; right; right; right; right. exists r. split; [by right | done].
  - intros (r & Hr & Hrest). exists r. split; [by right | done].
Qed.

Lemma explained_further (json_loads : string → option json) (o : Outcome)
    (replies : list Outcome) (out : option result) :
  explained json_loads replies out → explained json_loads (o :: replies) out.
Proof.
  destruct out as [res|]; cbn [explained]; [apply explains_further|].
  intros H. by right.
Qed.

Lemma post_attempts_explained (json_loads : string → option json)
    (attempts : list nat) (w : World) :
  explained json_loads (pending w) (post_attempts json_loads attempts w).1.
Proof.
  revert w. induction attempts as [|attempt later IH]; intros w.
  { cbn. split; [done | by left]. }
  cbn [post_attempts]. unfold urlopen.
  destruct (pending w) as [|o rest] eqn:Hpending.
  { destruct (attempt <? 2).
    - specialize (IH (sleep (1 + Z.of_nat attempt) w)).
      cbn [sleep pending] in IH. by rewrite Hpending in IH.
    - cbn. split; [done | right; by left]. }
  destruct o as [|r|]; [| |cbn; by left].
  { destruct (attempt <? 2).
    - apply explained_further.
      apply (IH (sleep (1 + Z.of_nat attempt) (MkWorld (now w) rest (slept w)))).
    - cbn. split; [done | right; by left]. }
  set (w1 := MkWorld (now w) rest (slept w)).
  set (w2 := if (status_code r =? 403)%Z
             then handle_rate_limit (status_code r) (headers r) w1 else w1).
  assert (pending w2 = rest) as Hp2.
  { subst w2. destruct (status_code r =? 403)%Z; [|done].
    by destruct (handle_rate_limit_cases (status_code r) (headers r) w1)
      as [-> | (d & _ & ->)]. }
  assert (Reply r ∈ Reply r :: rest) as Hr by by left.
  destruct (Z.eqb_spec (status_code r) 403) as [H403|H403]; cbn [andb].
  - case_bool_decide as Hrem.
    { apply explained_further. specialize (IH w2). by rewrite Hp2 in IH. }
    rewrite H403. cbn. split; [done|].
    do 5 right. left. split; [done|]. by exists r.
  - destruct (Z.eqb_spec (status_code r) 200) as [H200|H200];
      [|destruct (Z.eqb_spec (status_code r) 201) as [H201|H201]]; cbn [orb].
    1,2: destruct (json_loads (raw r)) as [payload|] eqn:Hload; cbn;
      [exists r; split; [done|]; split; [lia | done]
      | split; [done|]; do 2 right; left; split; [done|]; exists r;
        split; [done|]; split; [lia | done]].
    destruct (Z.eqb_spec (status_code r) 404) as [H404|H404].
    { cbn. split; [done|]. do 3 right. left. split; [done|]. by exists r. }
    destruct (Z.eqb_spec (status_code r) 401) as [H401|H401].
    { cbn. split; [done|]. do 4 right. left. split; [done|]. by exists r. }
    destruct ((500 <=? status_code r)%Z && (attempt <? 2)).
    { apply explained_further. specialize (IH (sleep (1 + Z.of_nat attempt) w2)).
      cbn [sleep pending] in IH. by rewrite Hp2 in IH. }
    cbn. split; [done|]. do 6 right. exists r. split; [done|]. split; [done|].
    rewrite !not_elem_of_cons. repeat split; try done. apply not_elem_of_nil.
Qed.

(** X3: every result of [gh_post_json] is explained by a reply it received: a
    payload without error comes from a 200 or 201 reply whose body parses to
    it; an error comes with no payload and is one of [failed],
    [network_error], or the code of a reply received ([invalid_json] for an
    unparsable 200 or 201, [not_found] for 404, [unauthorized] for 401,
    [forbidden] for a 403 whose rate limit is not exhausted, [http_<status>]
    for a status outside 200, 201, 401, 403 and 404); and an exception leaves
    the client only when a request ended in one it does not catch. *)
Theorem gh_post_json_explained (json_loads : string → option json) (w : World) :
  explained json_loads (pending w) (gh_post_json json_loads w).1.
Proof. apply post_attempts_explained. Qed.

(** Before the last attempt, a transient outcome is retried: the result is
    that of the attempts left, run on the replies left. *)
Lemma post_attempts_transient (json_loads : string → option json)
    (attempt : nat) (later : list nat) (w : World) (o : Outcome)
    (rest : list Outcome) :
  pending w = o :: rest → transient o → attempt < 2 →
  ∃ w', pending w' = rest
        ∧ post_attempts json_loads (attempt :: later) w
          = post_attempts json_loads later w'.
Proof.
  intros Hpending Ho Hattempt.
  cbn [post_attempts]. unfold urlopen. rewrite Hpending.
  rewrite (proj2 (Nat.ltb_lt attempt 2) Hattempt).
  destruct o as [|r|]; [| |done].
  { by exists (sleep (1 + Z.of_nat attempt) (MkWorld (now w) rest (slept w))). }
  set (w1 := MkWorld (now w) rest (slept w)).
  set (w2 := if (status_code r =? 403)%Z
             then handle_rate_limit (status_code r) (headers r) w1 else w1).
  assert (pending w2 = rest) as Hp2.
  { subst w2. destruct (status_code r =? 403)%Z; [|done].
    by destruct (handle_rate_limit_cases (status_code r) (headers r) w1)
      as [-> | (d & _ & ->)]. }
  destruct Ho as [H500 | [H403 Hrem]].
  - destruct (Z.eqb_spec (status_code r) 403) as [H403|_]; [lia|]. cbn [andb].
    rewrite (proj2 (Z.eqb_neq _ 200)), (proj2 (Z.eqb_neq _ 201)),
      (proj2 (Z.eqb_neq _ 404)), (proj2 (Z.eqb_neq _ 401)) by lia.
    rewrite (proj2 (Z.leb_le 500 _) H500). cbn [orb andb].
    by exists (sleep (1 + Z.of_nat attempt) w2).
  - rewrite (proj2 (Z.eqb_eq _ 403) H403), (bool_decide_eq_true_2 _ Hrem).
    cbn [andb]. by exists w2.
Qed.

(** X4: transient failures are retried through: when at most two transient
    outcomes (no connection, a status of 500 or more, a 403 of an exhausted
    rate limit) come before a 200 or 201 reply with a body that parses,
    [gh_post_json] returns that payload and no error. *)
Theorem gh_post_json_retries (json_loads : string → option json) (w : World)
    (failures rest : list Outcome) (r : Response) (payload : json) :
  pending w = failures ++ Reply r :: rest →
  Forall transient failures → length failures ≤ 2 →
  (status_code r = 200 ∨ status_code r = 201)%Z →
  json_loads (raw r) = Some payload →
  (gh_post_json json_loads w).1 = Some (payload, None)
  ∧ pending (gh_post_json json_loads w).2 = rest.
Proof.
  intros Hpending Hall Hlen Hstatus Hload.
  assert (∀ attempt later w0,
            pending w0 = Reply r :: rest →
            (post_attempts json_loads (attempt :: later) w0).1 = Some (payload, None)
            ∧ pending (post_attempts json_loads (attempt :: later) w0).2 = rest)
    as Hok.
  { intros attempt later w0 Hw0.
    rewrite (post_attempts_reply json_loads attempt later w0 r rest Hw0) by lia.
    cbn zeta. rewrite Hload. by destruct Hstatus as [-> | ->]. }
  unfold gh_post_json. cbn [seq].
  destruct failures as [|o1 [|o2 [|o3 failures]]]; cbn [length] in Hlen; [..|lia].
  - by apply Hok.
  - apply Forall_cons in Hall as [Ho1 _].
    destruct (post_attempts_transient json_loads 0 [1; 2] w o1 (Reply r :: rest)
                Hpending Ho1) as (w1 & Hw1 & ->); [lia|].
    by apply Hok.
  - apply Forall_cons in Hall as [Ho1 Hall]. apply Forall_cons in Hall as [Ho2 _].
    destruct (post_attempts_transient json_loads 0 [1; 2] w o1
                (o2 :: Reply r :: rest) Hpending Ho1) as (w1 & Hw1 & ->); [lia|].
    destruct (post_attempts_transient json_loads 1 [2] w1 o2 (Reply r :: rest)
                Hw1 Ho2) as (w2 & Hw2 & ->); [lia|].
    by apply Hok.
Qed.

Lemma gh_post_json_retries_witness :
  (gh_post_json parse_braces
     (MkWorld 0 [URLError; Reply (bare_response 503); ok_reply; ok_reply] [])).1
  = Some (JObj [], None).
Proof.
  apply (gh_post_json_retries parse_braces
           (MkWorld 0 [URLError; Reply (bare_response 503); ok_reply; ok_reply] [])
           [URLError; Reply (bare_response 503)] [ok_reply]
           (MkResponse 200 ∅ "{}") (JObj []) eq_refl).
  - apply Forall_cons. split; [exact I|].
    apply Forall_cons. split; [left; cbn; lia | constructor].
  - cbn. lia.
  - by left.
  - reflexivity.
Defined.

(** X5: a 403 of an exhausted rate limit whose reset header is missing, empty
    or not an integer is retried at once: the attempt is used up and nothing
    is slept. *)
Theorem rate_limit_without_reset (json_loads : string → option json)
    (attempt : nat) (later : list nat) (w : World) (r : Response)
    (rest : list Outcome) :
  pending w = Reply r :: rest →
  status_code r = 403%Z →
  rate_limit_remaining (headers r) = Some "0" →
  py_int (default "" (rate_limit_reset (headers r))) = None →
  post_attempts json_loads (attempt :: later) w
  = post_attempts json_loads later (MkWorld (now w) rest (slept w)).
Proof.
  intros Hpending Hstatus Hremaining Hreset.
  cbn [post_attempts]. unfold urlopen. rewrite Hpending, Hstatus.
  cbn [Z.eqb Pos.eqb andb]. unfold handle_rate_limit.
  rewrite Hremaining, Hreset. cbn [Z.eqb Pos.eqb negb].
  rewrite bool_decide_eq_true_2 by done.
  by destruct (_ && truthy _).
Qed.

Lemma rate_limit_without_reset_witness :
  let rest := [rate_limited_reply ""; rate_limited_reply "12.5"; ok_reply] in
  let w := MkWorld 0 (rate_limited_reply "soon" :: rest) [] in
  gh_post_json parse_braces w = post_attempts parse_braces [1; 2] (MkWorld 0 rest [])
  ∧ gh_post_json parse_braces w = (Some (JNull, Some "failed"), MkWorld 0 [ok_reply] []).
Proof.
  intros rest w. split; [|reflexivity].
  exact (rate_limit_without_reset parse_braces 0 [1; 2] w (rate_limited "soon") rest
           eq_refl eq_refl eq_refl eq_refl).
Defined.

(** ** Substrings, slices and stripping *)

Lemma sapp_assoc (a b c : string) : (a +:+ b) +:+ c = a +:+ (b +:+ c).
Proof.
  induction a as [|x a IH]; [reflexivity|].
  change ((String x a +:+ b) +:+ c) with (String x ((a +:+ b) +:+ c)).
  by rewrite IH.
Qed.

Lemma sapp_nil_r (a : string) : a +:+ "" = a.
Proof.
  induction a as [|x a IH]; [reflexivity|].
  change (String x a +:+ "") with (String x (a +:+ "")). by rewrite IH.
Qed.

Lemma sapp_cons (x : ascii) (a b : string) :
  String x a +:+ b = String x (a +:+ b).
Proof. reflexivity. Qed.

Lemma prefix_iff (n h : string) :
  String.prefix n h = true ↔ ∃ post, h = n +:+ post.
Proof.
  revert h. induction n as [|x n IH]; intros h.
  - split; [intros _; by exists h | by destruct h].
  - destruct h as [|y h]; cbn [String.prefix].
    + split; [discriminate | by intros [post [=]]].
    + destruct (ascii_dec x y) as [->|Hne].
      * rewrite IH. split; intros [post Hpost]; exists post.
        -- by rewrite sapp_cons, Hpost.
        -- rewrite sapp_cons in Hpost. by injection Hpost.
      * split; [discriminate|]. intros [post Hpost].
        rewrite sapp_cons in Hpost. by injection Hpost as -> _.
Qed.

Lemma contains_iff (n h : string) :
  contains n h = true ↔ ∃ pre post, h = pre +:+ n +:+ post.
Proof.
  induction h as [|y h IH]; cbn [contains].
  - rewrite orb_false_r, prefix_iff. split.
    + intros [post Hpost]. by exists "", post.
    + intros (pre & post & Hpost). destruct pre; [by exists post | discriminate].
  - rewrite orb_true_iff, IH, prefix_iff. split.
    + intros [[post Hpost] | (pre & post & ->)].
      * by exists "", post.
      * by exists (String y pre), post.
    + intros (pre & post & Hpost). destruct pre as [|x pre].
      * left. by exists post.
      * right. rewrite sapp_cons in Hpost. injection Hpost as _ ->.
        by exists pre, post.
Qed.


Lemma contains_trans (a b c : string) :
  contains a b = true → contains b c = true → contains a c = true.
Proof.
  rewrite !contains_iff. intros (p1 & q1 & ->) (p2 & q2 & ->).
  exists (p2 +:+ p1), (q1 +:+ q2). by rewrite !sapp_assoc.
Qed.

Lemma stake_sdrop (n : nat) (s : string) : stake n s +:+ sdrop n s = s.
Proof.
  revert s. induction n as [|n IH]; intros [|x s]; cbn [stake sdrop]; try done.
  by rewrite sapp_cons, IH.
Qed.

Lemma length_stake_le (n : nat) (s : string) : String.length (stake n s) ≤ n.
Proof.
  revert s. induction n as [|n IH]; intros [|x s]; cbn [stake String.length]; try lia.
  specialize (IH s). lia.
Qed.

Lemma contains_slice (a b : nat) (s : string) : contains (slice a b s) s = true.
Proof.
  apply contains_iff. unfold slice.
  exists (stake a s), (sdrop (b - a) (sdrop a s)).
  by rewrite stake_sdrop, stake_sdrop.
Qed.

Lemma length_slice_le (a b : nat) (s : string) :
  String.length (slice a b s) ≤ b - a.
Proof. apply length_stake_le. Qed.

Lemma lstrip_by_suffix (p : ascii → bool) (s : string) :
  ∃ pre, s = pre +:+ lstrip_by p s.
Proof.
  induction s as [|x s [pre IH]]; [by exists ""|]. cbn [lstrip_by].
  destruct (p x); [|by exists ""]. exists (String x pre). by rewrite sapp_cons, <- IH.
Qed.

Lemma rstrip_by_prefix (p : ascii → bool) (s : string) :
  ∃ post, s = rstrip_by p s +:+ post.
Proof.
  induction s as [|x s [post IH]]; [by exists ""|]. cbn [rstrip_by].
  destruct (rstrip_by p s) as [|y r] eqn:Hr.
  - destruct (p x).
    + by exists (String x s).
    + exists s. reflexivity.
  - exists post. by rewrite sapp_cons, <- IH.
Qed.

Lemma length_sapp (a b : string) :
  String.length (a +:+ b) = String.length a + String.length b.
Proof.
  induction a as [|x a IH]; [reflexivity|]. rewrite sapp_cons.
  cbn [String.length]. by rewrite IH.
Qed.

Lemma contains_strip (s : string) : contains (strip s) s = true.
Proof.
  apply contains_iff. unfold strip.
  destruct (lstrip_by_suffix is_space s) as [pre Hpre].
  destruct (rstrip_by_prefix is_space (lstrip_by is_space s)) as [post Hpost].
  exists pre, post. by rewrite <- Hpost.
Qed.

Lemma length_strip_le (s : string) : String.length (strip s) ≤ String.length s.
Proof.
  unfold strip.
  destruct (lstrip_by_suffix is_space s) as [pre Hpre].
  destruct (rstrip_by_prefix is_space (lstrip_by is_space s)) as [post Hpost].
  rewrite Hpre at 2. rewrite Hpost at 2. rewrite !length_sapp. lia.
Qed.

(** The first character a strip leaves, if any, is not stripped. *)
Lemma lstrip_by_head (p : ascii → bool) (s : string) (x : ascii) (r : string) :
  lstrip_by p s = String x r → p x = false.
Proof.
  induction s as [|y s IH]; [discriminate|]. cbn [lstrip_by].
  destruct (p y) eqn:Hy; [exact IH|]. by intros [= <- _].
Qed.

Lemma lstrip_by_id (p : ascii → bool) (x : ascii) (r : string) :
  p x = false → lstrip_by p (String x r) = String x r.
Proof. intros H. cbn [lstrip_by]. by rewrite H. Qed.

Lemma rstrip_by_head (p : ascii → bool) (x : ascii) (r : string) :
  p x = false → ∃ r', rstrip_by p (String x r) = String x r'.
Proof.
  intros H. cbn [rstrip_by]. destruct (rstrip_by p r); [|by eexists].
  rewrite H. by eexists.
Qed.

Lemma rstrip_by_idemp (p : ascii → bool) (s : string) :
  rstrip_by p (rstrip_by p s) = rstrip_by p s.
Proof.
  induction s as [|x s IH]; [reflexivity|]. cbn [rstrip_by].
  destruct (rstrip_by p s) as [|y r] eqn:Hr.
  - destruct (p x) eqn:Hx; [reflexivity|]. cbn [rstrip_by]. by rewrite Hx.
  - cbn [rstrip_by]. cbn [rstrip_by] in IH. by rewrite IH.
Qed.

(** [strip] is idempotent. *)
Lemma strip_idemp (s : string) : strip (strip s) = strip s.
Proof.
  unfold strip. destruct (lstrip_by is_space s) as [|x r] eqn:Hl; [reflexivity|].
  pose proof (lstrip_by_head is_space s x r Hl) as Hx.
  destruct (rstrip_by_head is_space x r Hx) as [r' Hr']. rewrite Hr'.
  rewrite (lstrip_by_id is_space x r' Hx), <- Hr'. apply rstrip_by_idemp.
Qed.

Lemma find_Some (n h : string) (i : nat) :
  find n h = Some i →
  ∃ pre post, h = pre +:+ n +:+ post ∧ String.length pre = i.
Proof.
  revert i. induction h as [|y h IH]; intros i; cbn [find].
  - destruct (String.prefix n "") eqn:Hp; [|discriminate].
    intros [= <-]. apply prefix_iff in Hp as [post Hpost]. by exists "", post.
  - destruct (String.prefix n (String y h)) eqn:Hp.
    + intros [= <-]. apply prefix_iff in Hp as [post Hpost]. by exists "", post.
    + destruct (find n h) as [j|]; [|discriminate]. intros [= <-].
      destruct (IH j eq_refl) as (pre & post & -> & Hlen).
      exists (String y pre), post. split; [reflexivity|]. cbn [String.length]. lia.
Qed.

Lemma find_is_Some (n h : string) :
  is_Some (find n h) ↔ contains n h = true.
Proof.
  induction h as [|y h IH]; cbn [find contains].
  - rewrite orb_false_r. destruct (String.prefix n ""); [by split; eauto|].
    split; [by intros [? [=]] | discriminate].
  - destruct (String.prefix n (String y h)); cbn [orb]; [by split; eauto|].
    rewrite <- IH. destruct (find n h); cbn; split; eauto; by intros [? [=]].
Qed.

Lemma length_smap (f : ascii → ascii) (s : string) :
  String.length (smap f s) = String.length s.
Proof. induction s as [|x s IH]; [reflexivity|]. cbn. by rewrite IH. Qed.

Lemma smap_stake (f : ascii → ascii) (n : nat) (s : string) :
  smap f (stake n s) = stake n (smap f s).
Proof.
  revert s. induction n as [|n IH]; intros [|x s]; cbn [stake smap]; try done.
  by rewrite IH.
Qed.

Lemma smap_sdrop (f : ascii → ascii) (n : nat) (s : string) :
  smap f (sdrop n s) = sdrop n (smap f s).
Proof.
  revert s. induction n as [|n IH]; intros [|x s]; cbn [sdrop smap]; try done.
Qed.

Lemma smap_slice (f : ascii → ascii) (a b : nat) (s : string) :
  smap f (slice a b s) = slice a b (smap f s).
Proof. unfold slice. by rewrite smap_stake, smap_sdrop. Qed.

Lemma is_space_lower (c : ascii) : is_space (lower_char c) = is_space c.
Proof. by destruct c as [[] [] [] [] [] [] [] []]. Qed.

Lemma lower_lstrip (s : string) :
  lower (lstrip_by is_space s) = lstrip_by is_space (lower s).
Proof.
  induction s as [|x s IH]; [reflexivity|]. cbn [lstrip_by lower smap].
  rewrite is_space_lower. by destruct (is_space x).
Qed.

Lemma lower_rstrip (s : string) :
  lower (rstrip_by is_space s) = rstrip_by is_space (lower s).
Proof.
  induction s as [|x s IH]; [reflexivity|]. cbn [rstrip_by lower smap].
  fold (lower s). rewrite <- IH, is_space_lower.
  destruct (rstrip_by is_space s); [by destruct (is_space x) | reflexivity].
Qed.

Lemma lower_strip (s : string) : lower (strip s) = strip (lower s).
Proof. unfold strip. by rewrite lower_rstrip, lower_lstrip. Qed.

Lemma sdrop_sapp_le (a : nat) (u x : string) :
  a ≤ String.length u → sdrop a (u +:+ x) = sdrop a u +:+ x.
Proof.
  revert u. induction a as [|a IH]; intros [|y u] H; cbn in *; try done; try lia.
  apply IH. lia.
Qed.

Lemma stake_sapp_ge (k : nat) (u x : string) :
  String.length u ≤ k → stake k (u +:+ x) = u +:+ stake (k - String.length u) x.
Proof.
  revert k. induction u as [|y u IH]; intros k H.
  - cbn. by rewrite Nat.sub_0_r.
  - destruct k as [|k]; cbn [String.length] in *; [lia|].
    rewrite sapp_cons. cbn [stake Nat.sub]. rewrite sapp_cons, IH by lia. done.
Qed.

(** A slice that spans an occurrence keeps it whole. *)
Lemma slice_around (a b : nat) (pre n post : string) :
  a ≤ String.length pre → String.length pre + String.length n ≤ b →
  ∃ pre' post', slice a b (pre +:+ n +:+ post) = pre' +:+ n +:+ post'.
Proof.
  intros Ha Hb. unfold slice. rewrite (sdrop_sapp_le a pre) by done.
  assert (String.length (sdrop a pre) = String.length pre - a) as Hlen.
  { clear Hb. revert pre Ha. induction a as [|a IH]; intros [|y pre] H;
      cbn in *; try lia. apply IH. lia. }
  rewrite stake_sapp_ge by lia. rewrite stake_sapp_ge by lia.
  by eexists _, _.
Qed.

Lemma lstrip_by_sapp (p : ascii → bool) (u : string) (x : ascii) (r : string) :
  p x = false → ∃ u', lstrip_by p (u +:+ String x r) = u' +:+ String x r.
Proof.
  intros Hx. induction u as [|y u [u' IH]].
  - exists "". change (lstrip_by p (String x r) = String x r).
    cbn [lstrip_by]. by rewrite Hx.
  - rewrite sapp_cons. cbn [lstrip_by]. destruct (p y); [by exists u'|].
    by exists (String y u).
Qed.

Lemma rstrip_by_sapp (p : ascii → bool) (u x : string) :
  rstrip_by p x ≠ "" → rstrip_by p (u +:+ x) = u +:+ rstrip_by p x.
Proof.
  intros Hx. induction u as [|y u IH]; [reflexivity|].
  rewrite sapp_cons. cbn [rstrip_by]. rewrite IH.
  destruct (u +:+ rstrip_by p x) eqn:E; [|by rewrite sapp_cons, E].
  destruct u; [|discriminate]. by destruct Hx.
Qed.

Lemma rstrip_by_sapp_blank (p : ascii → bool) (n v : string) :
  rstrip_by p v = "" → rstrip_by p (n +:+ v) = rstrip_by p n.
Proof.
  intros Hv. induction n as [|y n IH]; [done|].
  rewrite sapp_cons. cbn [rstrip_by]. by rewrite IH.
Qed.

(** A text that [strip] leaves alone loses nothing when what surrounds it is
    stripped. *)
Lemma strip_around (u n v : string) :
  strip n = n → n ≠ "" →
  ∃ u' v', strip (u +:+ n +:+ v) = u' +:+ n +:+ v'.
Proof.
  intros Hn Hne. unfold strip in *.
  assert (lstrip_by is_space n = n ∧ rstrip_by is_space n = n) as [Hl Hr].
  { destruct (lstrip_by_suffix is_space n) as [pre Hpre].
    destruct (rstrip_by_prefix is_space (lstrip_by is_space n)) as [post Hpost].
    assert (String.length pre = 0 ∧ String.length post = 0) as [H1 H2].
    { pose proof (f_equal String.length Hpre) as H1.
      pose proof (f_equal String.length Hpost) as H2.
      rewrite length_sapp in H1, H2. rewrite Hn in H2. lia. }
    destruct pre; [|discriminate].
    change (n = lstrip_by is_space n) in Hpre.
    split; [done|]. by rewrite <- Hpre in Hn. }
  destruct n as [|x r]; [done|].
  pose proof (lstrip_by_head is_space _ x r Hl) as Hx.
  destruct (lstrip_by_sapp is_space u x (r +:+ v) Hx) as [u' Hu'].
  rewrite <- sapp_cons in Hu'. rewrite Hu'.
  assert (∃ v', rstrip_by is_space (String x r +:+ v) = String x r +:+ v')
    as [v' Hv'].
  { destruct (rstrip_by is_space v) as [|z v0] eqn:Hv.
    - exists "". by rewrite rstrip_by_sapp_blank, Hr, sapp_nil_r.
    - exists (String z v0). rewrite rstrip_by_sapp by (by rewrite Hv).
      by rewrite Hv. }
  exists u', v'. rewrite rstrip_by_sapp; [by rewrite Hv'|].
  rewrite Hv'. discriminate.
Qed.

(** ** Evidence *)

Lemma make_evidence_unfold (path : option string) (text needle : string) :
  needle ≠ "" →
  ev_snippet (make_evidence path (Some text) needle)
  = (fun idx =>
       strip (slice (idx - 120)
                    (Nat.min (String.length text)
                             (idx + String.length needle + 120)) text))
    <$> find (lower needle) (lower text).
Proof.
  intros Hne. unfold make_evidence. cbn [ev_snippet].
  destruct needle as [|x needle]; [done|].
  by destruct (find _ _).
Qed.

Lemma snippet_is_Some (path : option string) (text needle : string) :
  is_Some (ev_snippet (make_evidence path (Some text) needle))
  ↔ needle ≠ "" ∧ contains (lower needle) (lower text) = true.
Proof.
  destruct (decide (needle = "")) as [->|Hne].
  { split; [by intros [? [=]] | by intros [? _]]. }
  rewrite (make_evidence_unfold path text needle Hne).
  rewrite <- find_is_Some, fmap_is_Some. tauto.
Qed.

(** X6: [make_evidence] gives a snippet exactly when the needle is not empty
    and occurs in the text, case ignored; the snippet is a piece of the text
    itself, at most 240 characters longer than the needle, with no blank at
    either end. *)
Theorem make_evidence_snippet (path : option string) (text needle : string) :
  (is_Some (ev_snippet (make_evidence path (Some text) needle))
   ↔ needle ≠ "" ∧ contains (lower needle) (lower text) = true)
  ∧ ∀ s, ev_snippet (make_evidence path (Some text) needle) = Some s →
         contains s text = true
         ∧ String.length s ≤ String.length needle + 240
         ∧ strip s = s.
Proof.
  split; [apply snippet_is_Some|].
  destruct (decide (needle = "")) as [->|Hne]; [discriminate|].
  rewrite (make_evidence_unfold path text needle Hne).
  - intros s. destruct (find (lower needle) (lower text)) as [idx|]; [|discriminate].
    cbn [fmap option_fmap option_map]. intros [= <-]. split; [|split].
    + eapply contains_trans; [apply contains_strip | apply contains_slice].
    + etrans; [apply length_strip_le|]. etrans; [apply length_slice_le|]. lia.
    + apply strip_idemp.
Qed.

Lemma snippet_shows (path : option string) (text needle s : string) :
  strip needle = needle →
  ev_snippet (make_evidence path (Some text) needle) = Some s →
  contains (lower needle) (lower s) = true.
Proof.
  intros Hstrip. destruct (decide (needle = "")) as [->|Hne]; [discriminate|].
  rewrite (make_evidence_unfold path text needle Hne).
  destruct (find (lower needle) (lower text)) as [idx|] eqn:Hfind; [|discriminate].
  cbn [fmap option_fmap option_map]. intros [= <-].
  apply find_Some in Hfind as (pre & post & Htext & Hidx).
  pose proof (f_equal String.length Htext) as Hlen.
  rewrite !length_sapp in Hlen. unfold lower in Hlen.
  rewrite !length_smap in Hlen. fold (lower needle) in *.
  rewrite lower_strip. unfold lower at 2. rewrite smap_slice. fold (lower text).
  rewrite Htext.
  destruct (slice_around (idx - 120)
              (Nat.min (String.length text) (idx + String.length needle + 120))
              pre (lower needle) post) as (pre' & post' & ->).
  { lia. }
  { unfold lower. rewrite length_smap. lia. }
  destruct (strip_around pre' (lower needle) post') as (u' & v' & ->).
  { by rewrite <- lower_strip, Hstrip. }
  { by destruct needle. }
  apply contains_iff. by exists u', v'.
Qed.

Lemma snippet_piece (path : option string) (text needle s : string) :
  ev_snippet (make_evidence path (Some text) needle) = Some s →
  contains s text = true.
Proof.
  destruct (decide (needle = "")) as [->|Hne]; [discriminate|].
  rewrite (make_evidence_unfold path text needle Hne).
  destruct (find (lower needle) (lower text)) as [idx|]; [|discriminate].
  cbn [fmap option_fmap option_map]. intros [= <-].
  eapply contains_trans; [apply contains_strip | apply contains_slice].
Qed.

(** X7: on a text of ASCII characters, when the needle has no blank at either
    end, the snippet shows it: the needle occurs in the snippet, case ignored.
    (The window is cut out of the text at the index found in the lower-cased
    text, so this rests on lower-casing mapping character to character.) *)
Theorem make_evidence_shows_needle (path : option string) (text needle s : string) :
  ascii_text text →
  strip needle = needle →
  ev_snippet (make_evidence path (Some text) needle) = Some s →
  contains (lower needle) (lower s) = true.
Proof. intros _. apply snippet_shows. Qed.

Lemma make_evidence_shows_needle_witness :
  ascii_text "  It uses the AUTHGUARD class.  "
  ∧ ev_snippet (make_evidence (Some "README.md")
                  (Some "  It uses the AUTHGUARD class.  ") "AuthGuard")
    = Some "It uses the AUTHGUARD class."
  ∧ contains (lower "AuthGuard") (lower "It uses the AUTHGUARD class.") = true.
Proof.
  split; [reflexivity|]. split; [reflexivity|].
  apply (make_evidence_shows_needle (Some "README.md")
           "  It uses the AUTHGUARD class.  " "AuthGuard" "It uses the AUTHGUARD class.");
    reflexivity.
Defined.

(** ** Auth signals *)

Lemma chars_sapp (a b : string) :
  list_ascii_of_string (a +:+ b) = list_ascii_of_string a ++ list_ascii_of_string b.
Proof.
  induction a as [|x a IH]; [reflexivity|]. rewrite sapp_cons.
  cbn [list_ascii_of_string app]. by rewrite IH.
Qed.

Lemma chars_smap (f : ascii → ascii) (s : string) :
  list_ascii_of_string (smap f s) = f <$> list_ascii_of_string s.
Proof. induction s as [|x s IH]; [reflexivity|]. cbn. by rewrite IH. Qed.

(** A text of blanks contains no needle that starts with another character. *)
Lemma contains_in_blanks (x : ascii) (n h : string) :
  forallb is_space (list_ascii_of_string h) = true →
  is_space x = false → contains (String x n) h = false.
Proof.
  intros Hall Hx. destruct (contains (String x n) h) eqn:Hc; [|done].
  apply contains_iff in Hc as (pre & post & ->).
  rewrite chars_sapp, forallb_app, sapp_cons in Hall.
  cbn [list_ascii_of_string forallb] in Hall.
  apply andb_true_iff in Hall as [_ [Hx' _]%andb_true_iff]. congruence.
Qed.

Lemma lower_blanks (text : string) :
  forallb is_space (list_ascii_of_string text) = true →
  forallb is_space (list_ascii_of_string (lower text)) = true.
Proof.
  unfold lower. rewrite chars_smap. intros H.
  induction (list_ascii_of_string text) as [|x l IH]; [done|].
  cbn [forallb fmap list_fmap] in *. apply andb_true_iff in H as [Hx Hl].
  by rewrite is_space_lower, Hx, IH.
Qed.

Lemma marker_head (marker : string) :
  marker ∈ auth_markers →
  ∃ x n, lower marker = String x n ∧ is_space x = false.
Proof.
  unfold auth_markers. rewrite !elem_of_cons, elem_of_nil.
  intros [->|[->|[->|[->|[->|[->|[->|[->|[]]]]]]]]]; by eexists _, _.
Qed.

(** The signals, as a filter of the fixed vocabulary: the guard on a blank
    text changes nothing. *)
Lemma extract_auth_signals_filter (readme_path : option string) (text : string) :
  auth_signal <$> extract_auth_signals readme_path (Some text)
  = filter (fun marker => contains (lower marker) (lower text) = true) auth_markers.
Proof.
  unfold extract_auth_signals. destruct (blank (Some text)) eqn:Hblank.
  - symmetry. apply filter_none, Forall_forall. intros marker Hmarker.
    destruct (marker_head marker Hmarker) as (x & n & -> & Hx).
    rewrite (contains_in_blanks x n (lower text)); [done| |done].
    by apply lower_blanks, blank_all_space.
  - cbn [default from_option id]. rewrite <- list_fmap_compose. apply list_fmap_id.
Qed.

(** X8: the auth signals are the markers of the fixed vocabulary that occur
    in the README, case ignored, in the order of the vocabulary and each at
    most once; texts that differ only in case give the same signals; and every
    signal carries a snippet of the README. *)
Theorem extract_auth_signals_markers (readme_path : option string) (text : string) :
  let signals := auth_signal <$> extract_auth_signals readme_path (Some text) in
  sublist signals auth_markers
  ∧ NoDup signals
  ∧ (∀ marker,
       marker ∈ signals
       ↔ marker ∈ auth_markers ∧ contains (lower marker) (lower text) = true)
  ∧ (∀ path' text',
       lower text' = lower text →
       auth_signal <$> extract_auth_signals path' (Some text') = signals)
  ∧ Forall (fun a => is_Some (ev_snippet (auth_evidence a)))
           (extract_auth_signals readme_path (Some text)).
Proof.
  intros signals. subst signals. rewrite extract_auth_signals_filter.
  split; [apply sublist_filter|]. split.
  { apply NoDup_filter. apply (bool_decide_unpack _). by vm_compute. }
  split; [intros marker; rewrite list_elem_of_filter; tauto|]. split.
  - intros path' text' Hlower. by rewrite extract_auth_signals_filter, Hlower.
  - unfold extract_auth_signals. destruct (blank (Some text)); [constructor|].
    cbn [default from_option id]. apply Forall_fmap, Forall_forall.
    intros marker [Hc Hmarker]%list_elem_of_filter. cbn [auth_evidence].
    apply snippet_is_Some. split; [|done].
    destruct (marker_head marker Hmarker) as (x & n & Hn & _). by destruct marker.
Qed.

(** ** The matcher: what a match consumes and captures *)

(** A successful match consumed a run of characters at the front of the
    text. *)
Lemma mseq_consumed (pat : list item) (prev : option ascii) (rest : list ascii)
    (st st' : mstate) :
  mseq pat prev rest st = Some st' →
  ∃ taken rest', rest = taken ++ rest' ∧ consumed st' = rev taken ++ consumed st.
Proof.
  revert prev rest st.
  induction pat as [|it pat IH]; intros prev rest st; cbn [mseq].
  - intros [= <-]. by exists [], rest.
  - destruct it as [p|p lo hi|ws| | | | |].
    + destruct rest as [|c rest]; [discriminate|].
      destruct (p c); [|discriminate].
      intros (taken & rest' & -> & Hc)%IH. exists (c :: taken), rest'.
      split; [done|]. rewrite Hc. cbn [push consumed rev]. by rewrite <- app_assoc.
    + intros (taken & rest1 & -> & _ & _ & Hk)%greedy_inv.
      apply IH in Hk as (taken' & rest' & -> & Hc).
      exists (taken ++ taken'), rest'. rewrite <- app_assoc. split; [done|].
      by rewrite Hc, consumed_pushes, rev_app_distr, <- app_assoc.
    + intros (w & rest1 & _ & -> & Hk)%alternatives_inv.
      apply IH in Hk as (taken' & rest' & -> & Hc).
      exists (list_ascii_of_string w ++ taken'), rest'. rewrite <- app_assoc.
      split; [done|].
      by rewrite Hc, consumed_pushes, rev_app_distr, <- app_assoc.
    + destruct (at_word_boundary prev rest); [apply IH | discriminate].
    + destruct (at_bol prev); [apply IH | discriminate].
    + destruct (at_eol rest); [apply IH | discriminate].
    + intros Hk. apply IH in Hk. exact Hk.
    + intros Hk. apply IH in Hk. exact Hk.
Qed.

Lemma match_at_front (pat : list item) (prev : option ascii) (rest : list ascii)
    (n : nat) (m : rmatch) :
  match_at pat prev rest = Some (n, m) →
  ∃ rest', rest = list_ascii_of_string (whole m) ++ rest'.
Proof.
  unfold match_at. destruct (mseq pat prev rest mstart) as [st|] eqn:Hm; [|discriminate].
  intros [= <- <-]. apply mseq_consumed in Hm as (taken & rest' & -> & Hc).
  exists rest'. cbn [whole]. rewrite Hc. cbn [mstart consumed].
  by rewrite app_nil_r, rev_involutive, list_ascii_of_string_of_list_ascii.
Qed.

(** Everything [finditer] returns is a piece of the text, and satisfies what
    every match at a position satisfies. *)
Lemma scan_pieces (P : rmatch → Prop) (pat : list item) :
  (∀ prev rest n m, match_at pat prev rest = Some (n, m) → P m) →
  ∀ rest prev skip,
    Forall (fun m => P m ∧ ∃ pre post,
                       rest = pre ++ list_ascii_of_string (whole m) ++ post)
           (scan pat prev rest skip).
Proof.
  intros HP.
  assert (∀ (c : ascii) (rest : list ascii) (ms : list rmatch),
            Forall (fun m => P m ∧ ∃ pre post,
                       rest = pre ++ list_ascii_of_string (whole m) ++ post) ms →
            Forall (fun m => P m ∧ ∃ pre post,
                       c :: rest = pre ++ list_ascii_of_string (whole m) ++ post) ms)
    as Hshift.
  { intros c rest ms Hms. eapply Forall_impl; [exact Hms|].
    intros m [Hm (pre & post & ->)].
    split; [done|]. by exists (c :: pre), post. }
  induction rest as [|c rest IH]; intros prev skip.
  - destruct skip; cbn [scan]; [|constructor].
    destruct (match_at pat prev []) as [[n m]|] eqn:E; [|constructor].
    constructor; [|constructor]. split; [by eapply HP|].
    apply match_at_front in E as [rest' E]. by exists [], rest'.
  - destruct skip; cbn [scan]; [|apply Hshift, IH].
    destruct (match_at pat prev (c :: rest)) as [[n m]|] eqn:E; [|apply Hshift, IH].
    constructor; [|apply Hshift, IH]. split; [by eapply HP|].
    apply match_at_front in E as [rest' E]. by exists [], rest'.
Qed.

Lemma string_of_chars_app (a b : list ascii) :
  string_of_list_ascii (a ++ b) = string_of_list_ascii a +:+ string_of_list_ascii b.
Proof. induction a as [|x a IH]; [reflexivity|]. cbn. by rewrite IH. Qed.

Lemma finditer_pieces (P : rmatch → Prop) (pat : list item) (text : string) (m : rmatch) :
  (∀ prev rest n m, match_at pat prev rest = Some (n, m) → P m) →
  m ∈ finditer pat text → P m ∧ contains (whole m) text = true.
Proof.
  intros HP Hm. unfold finditer in Hm.
  pose proof (scan_pieces P pat HP (list_ascii_of_string text) None 0) as Hall.
  eapply Forall_forall in Hall as [HPm (pre & post & Htext)]; [|exact Hm].
  split; [done|]. apply contains_iff.
  exists (string_of_list_ascii pre), (string_of_list_ascii post).
  rewrite <- (string_of_list_ascii_of_string text), Htext.
  by rewrite !string_of_chars_app, string_of_list_ascii_of_string.
Qed.

(** Every match that [scan] returns was found by [match_at] at some position
    of the text. *)
Lemma scan_origin (pat : list item) (rest : list ascii) (prev : option ascii)
    (skip : nat) :
  Forall (fun m => ∃ pre prev' rest' n,
                     rest = pre ++ rest' ∧ match_at pat prev' rest' = Some (n, m))
         (scan pat prev rest skip).
Proof.
  assert (∀ (c : ascii) (rest : list ascii) (ms : list rmatch),
            Forall (fun m => ∃ pre prev' rest' n,
                      rest = pre ++ rest' ∧ match_at pat prev' rest' = Some (n, m)) ms →
            Forall (fun m => ∃ pre prev' rest' n,
                      c :: rest = pre ++ rest'
                      ∧ match_at pat prev' rest' = Some (n, m)) ms)
    as Hshift.
  { intros c rest0 ms Hms. eapply Forall_impl; [exact Hms|].
    intros m (pre & prev' & rest' & n & -> & Hm).
    by exists (c :: pre), prev', rest', n. }
  revert prev skip. induction rest as [|c rest IH]; intros prev skip.
  - destruct skip; cbn [scan]; [|constructor].
    destruct (match_at pat prev []) as [[n m]|] eqn:E; [|constructor].
    constructor; [|constructor]. by exists [], prev, [], n.
  - destruct skip; cbn [scan]; [|apply Hshift, IH].
    destruct (match_at pat prev (c :: rest)) as [[n m]|] eqn:E; [|apply Hshift, IH].
    constructor; [|apply Hshift, IH]. by exists [], prev, (c :: rest), n.
Qed.

(** A group [(c tail)]: one character of a class, then a greedy run of
    another, captured. *)
Lemma mseq_group (p0 p : ascii → bool) (lo : nat) (hi : option nat)
    (tail : list item) (prev : option ascii) (rest : list ascii) (st st' : mstate) :
  mseq (Open :: Cls p0 :: Rep p lo hi :: Close :: tail) prev rest st = Some st' →
  ∃ c taken more,
    p0 c = true ∧ forallb p taken = true ∧ lo ≤ length taken
    ∧ groups st' = groups st ++ string_of_list_ascii (c :: taken) :: more
    ∧ ∃ rest', rest = (c :: taken) ++ rest'.
Proof.
  cbn [mseq]. destruct rest as [|c rest]; [discriminate|].
  destruct (p0 c) eqn:Hc; [|discriminate].
  intros (taken & rest' & -> & Hall & Hlo & Hk)%greedy_inv.
  apply mseq_groups in Hk as (more & Hgroups).
  exists c, taken, more. split; [done|]. split; [done|]. split; [done|].
  split; [|by exists rest'].
  rewrite Hgroups. cbn [close_group groups].
  rewrite groups_pushes, cur_pushes.
  cbn [push open_group groups cur fmap option_fmap option_map default from_option id].
  rewrite <- app_assoc. cbn [app].
  by rewrite rev_app_distr, rev_involutive.
Qed.

(** ** Evidence of the environment variables *)

Lemma rstrip_by_none (p : ascii → bool) (s : string) :
  forallb (fun c => negb (p c)) (list_ascii_of_string s) = true →
  rstrip_by p s = s.
Proof.
  induction s as [|x s IH]; [reflexivity|].
  cbn [list_ascii_of_string forallb rstrip_by].
  intros [Hx Hs]%andb_true_iff. rewrite (IH Hs).
  destruct s; [|reflexivity]. by destruct (p x).
Qed.

Lemma lstrip_by_none (p : ascii → bool) (s : string) :
  forallb (fun c => negb (p c)) (list_ascii_of_string s) = true →
  lstrip_by p s = s.
Proof.
  destruct s as [|x s]; [reflexivity|]. cbn [list_ascii_of_string forallb lstrip_by].
  intros [Hx _]%andb_true_iff. by destruct (p x).
Qed.

(** A text without blanks is left alone by [strip]. *)
Lemma strip_none (s : string) :
  forallb (fun c => negb (is_space c)) (list_ascii_of_string s) = true →
  strip s = s.
Proof.
  intros H. unfold strip. by rewrite (lstrip_by_none _ _ H), (rstrip_by_none _ _ H).
Qed.

Lemma upper_not_space (c : ascii) : is_upper_az c = true → negb (is_space c) = true.
Proof. destruct c as [[] [] [] [] [] [] [] []]; vm_compute; congruence. Qed.

Lemma env_tail_not_space (c : ascii) : env_tail c = true → negb (is_space c) = true.
Proof. destruct c as [[] [] [] [] [] [] [] []]; vm_compute; congruence. Qed.

Lemma env_token_no_space (name : string) :
  env_token name →
  forallb (fun c => negb (is_space c)) (list_ascii_of_string name) = true.
Proof.
  destruct name as [|x tail]; [done|]. intros [Hx Htail].
  cbn [list_ascii_of_string forallb]. apply andb_true_iff. split.
  - by rewrite (upper_not_space x Hx).
  - revert Htail. induction (list_ascii_of_string tail) as [|c l IH]; [done|].
    cbn [forallb]. intros [Hc Hl]%andb_true_iff.
    by rewrite (env_tail_not_space c Hc), IH.
Qed.

(** A token found in the text is a piece of the text. *)
Lemma findall_env_piece (text name : string) :
  name ∈ findall env_pattern text → contains name text = true.
Proof.
  unfold findall. intros (m & -> & Hm)%list_elem_of_fmap.
  by apply (finditer_pieces (fun _ => True) env_pattern text m).
Qed.

(** X9: every environment variable that is extracted has confidence
    [medium], the path of the README as the path of its evidence, and a
    snippet, which is a piece of the README. *)
Theorem extract_env_vars_evidence (readme_path : option string) (text : string) :
  Forall (fun v =>
            env_confidence v = "medium"
            ∧ ev_path (env_evidence v) = readme_path
            ∧ ∃ s, ev_snippet (env_evidence v) = Some s
                   ∧ contains s text = true)
         (extract_env_vars readme_path (Some text)).
Proof.
  apply Forall_forall. intros v Hv.
  assert (env_name v ∈ env_name <$> extract_env_vars readme_path (Some text)) as Hname
    by by apply list_elem_of_fmap_2.
  apply elem_of_env_names in Hname as [Hin _].
  unfold extract_env_vars in Hv. destruct (blank (Some text)); [by apply elem_of_nil in Hv|].
  apply list_elem_of_fmap in Hv as (name & -> & _). cbn [env_name] in Hin.
  cbn [env_confidence env_evidence env_name].
  split; [done|]. split; [done|].
  assert (is_Some (ev_snippet (make_evidence readme_path (Some text) name)))
    as [s Hs].
  { apply snippet_is_Some. split.
    - apply findall_env_token in Hin. by destruct name.
    - apply contains_smap. by apply findall_env_piece. }
  exists s. cbn [default from_option id] in *. split; [done|].
  by eapply snippet_piece.
Qed.

(** ** The paths of the endpoints *)

Lemma slash_path_group (p : ascii → bool) (c : ascii) (taken : list ascii) :
  is_char "/" c = true → forallb p taken = true → 1 ≤ length taken →
  slash_path p (string_of_list_ascii (c :: taken)).
Proof.
  intros Hc Hall Hlen. apply Ascii.eqb_eq in Hc as ->.
  exists (string_of_list_ascii taken). split; [reflexivity|]. split.
  - destruct taken; [cbn in Hlen; lia | discriminate].
  - by rewrite list_ascii_of_string_of_list_ascii.
Qed.

(** The group of a match of the OpenAPI pattern is a path key. *)
Lemma openapi_match_group (prev : option ascii) (rest : list ascii) (n : nat) (m : rmatch) :
  match_at openapi_pattern prev rest = Some (n, m) →
  slash_path openapi_key_char (group 1 m)
  ∧ ∃ pre post, rest = pre ++ list_ascii_of_string (group 1 m) ++ post.
Proof.
  unfold match_at, openapi_pattern.
  destruct (mseq _ prev rest mstart) as [st|] eqn:Hm; [|discriminate].
  intros [= <- <-]. cbn [mseq] in Hm.
  destruct (at_bol prev); [|discriminate].
  apply greedy_inv in Hm as (blanks & rest1 & -> & _ & _ & Hk).
  change (mseq (Open :: Cls (is_char "/") :: Rep openapi_key_char 1 None :: Close
                :: [Cls (is_char ":"); Rep is_space 0 None; Eol])
               (last_before prev blanks) rest1 (pushes blanks mstart) = Some st) in Hk.
  apply mseq_group in Hk as (c & taken & more & Hc & Hall & Hlen & Hgroups & post & ->).
  rewrite groups_pushes in Hgroups. cbn [mstart groups app] in Hgroups.
  unfold group. cbn [captured]. rewrite Hgroups. cbn [lookup list_lookup default from_option id].
  split; [by apply slash_path_group|].
  exists blanks, post. by rewrite list_ascii_of_string_of_list_ascii.
Qed.

Lemma finditer_openapi_group (text : string) (m : rmatch) :
  m ∈ finditer openapi_pattern text →
  slash_path openapi_key_char (group 1 m) ∧ contains (group 1 m) text = true.
Proof.
  intros Hm. unfold finditer in Hm.
  pose proof (scan_origin openapi_pattern (list_ascii_of_string text) None 0) as Hall.
  eapply Forall_forall in Hall as (pre & prev & rest & n & Htext & Hat); [|exact Hm].
  apply openapi_match_group in Hat as [Hpath (pre' & post & ->)].
  split; [done|]. apply contains_iff.
  exists (string_of_list_ascii (pre ++ pre')), (string_of_list_ascii post).
  rewrite <- (string_of_list_ascii_of_string text), Htext.
  rewrite <- (string_of_list_ascii_of_string (group 1 m)) at 2.
  by rewrite <- !string_of_chars_app, <- app_assoc.
Qed.


(** The second group of a match of the README pattern is a path. *)
Lemma method_match_path (prev : option ascii) (rest : list ascii) (n : nat) (m : rmatch) :
  match_at method_pattern prev rest = Some (n, m) →
  slash_path readme_path_char (group 2 m).
Proof.
  unfold match_at, method_pattern.
  match goal with
  | |- context [Rep (is_char "`") 0 (Some 1) :: ?after] =>
      remember after as tail eqn:Htail
  end.
  destruct (mseq _ prev rest mstart) as [st|] eqn:Hm; [|discriminate].
  intros [= <- <-]. cbn [mseq] in Hm.
  destruct (at_word_boundary prev rest); [|discriminate].
  apply alternatives_inv in Hm as (w & rest1 & _ & _ & Hk).
  cbn [mseq] in Hk.
  destruct (at_word_boundary _ rest1); [|discriminate].
  apply greedy_inv in Hk as (blanks & rest2 & _ & _ & _ & Hk).
  apply greedy_inv in Hk as (tick & rest3 & _ & _ & _ & Hk).
  subst tail.
  apply mseq_group in Hk as (c & taken & more & Hc & Hall & Hlen & Hgroups & _).
  rewrite !groups_pushes in Hgroups. cbn [close_group groups] in Hgroups.
  rewrite groups_pushes in Hgroups. cbn [open_group mstart groups app] in Hgroups.
  unfold group. cbn [captured]. rewrite Hgroups.
  cbn [lookup list_lookup default from_option id].
  by apply slash_path_group.
Qed.

Lemma finditer_method_path (text : string) (m : rmatch) :
  m ∈ finditer method_pattern text → slash_path readme_path_char (group 2 m).
Proof.
  intros Hm. unfold finditer in Hm.
  pose proof (scan_origin method_pattern (list_ascii_of_string text) None 0) as Hall.
  eapply Forall_forall in Hall as (pre & prev & rest & n & _ & Hat); [|exact Hm].
  by eapply method_match_path.
Qed.

Lemma openapi_key_not_space (c : ascii) :
  openapi_key_char c = true → negb (is_space c) = true.
Proof.
  unfold openapi_key_char. rewrite negb_true_iff, !orb_false_iff.
  intros [[-> _] _]. reflexivity.
Qed.

Lemma slash_path_strip (path : string) :
  slash_path openapi_key_char path → strip path = path.
Proof.
  intros (tail & -> & _ & Hall). apply strip_none.
  cbn [list_ascii_of_string forallb]. apply andb_true_iff. split; [reflexivity|].
  revert Hall. induction (list_ascii_of_string tail) as [|c l IH]; [done|].
  cbn [forallb]. intros [Hc Hl]%andb_true_iff.
  by rewrite (openapi_key_not_space c Hc), IH.
Qed.

(** What each scan appends. *)
Lemma openapi_scan_appends (openapi_path openapi_text : option string) acc :
  appends (openapi_endpoint openapi_path) acc
          (openapi_scan openapi_path openapi_text acc).
Proof.
  unfold openapi_scan. destruct (blank openapi_text) eqn:Hblank; [apply appends_refl|].
  destruct openapi_text as [text|]; [|discriminate]. clear Hblank.
  cbn [default from_option id].
  assert (∀ ms acc,
            (∀ m, m ∈ ms → m ∈ finditer openapi_pattern text) →
            appends (openapi_endpoint openapi_path) acc
                    (foldl (openapi_step openapi_path (Some text)) acc ms)) as H.
  { induction ms as [|m ms IH]; intros acc0 Hms; [apply appends_refl|].
    cbn [foldl]. eapply appends_trans; [|apply IH; intros; apply Hms; by right].
    destruct acc0 as [endpoints seen]. unfold openapi_step.
    destruct (negb _); [apply appends_refl|].
    case_bool_decide; [apply appends_refl|].
    eexists. split; [reflexivity|]. constructor; [|constructor].
    destruct (finditer_openapi_group text m) as [Hpath Hin]; [apply Hms; by left|].
    rewrite (slash_path_strip _ Hpath).
    unfold openapi_endpoint.
    cbn [ep_source ep_method ep_confidence ep_path ep_evidence].
    by repeat (split; [done|]). }
  by apply H.
Qed.

Lemma readme_scan_appends (readme_path readme_text : option string) acc :
  appends (readme_endpoint readme_path) acc
          (readme_scan readme_path readme_text acc).
Proof.
  unfold readme_scan. destruct (blank readme_text); [apply appends_refl|].
  generalize (finditer_method_group (default "" readme_text)).
  generalize (finditer_method_path (default "" readme_text)).
  generalize (finditer method_pattern (default "" readme_text)) as ms.
  intros ms. revert acc.
  induction ms as [|m ms IH]; intros acc0 Hpaths Hmethods; [apply appends_refl|].
  cbn [foldl].
  eapply appends_trans;
    [|apply IH; intros; [apply Hpaths | apply Hmethods]; by right].
  destruct acc0 as [endpoints seen]. unfold readme_step.
  case_bool_decide; [apply appends_refl|].
  eexists. split; [reflexivity|]. constructor; [|constructor].
  unfold readme_endpoint.
  cbn [ep_source ep_method ep_confidence ep_path ep_evidence].
  split; [done|]. split.
  { rewrite upper_method; apply Hmethods; by left. }
  split; [done|]. split; [apply Hpaths; by left | done].
Qed.

(** X10: every endpoint that is extracted is either read from the OpenAPI
    text or from the README.  In both cases its path is a [/] followed by at
    least one character of the class the pattern allows, so no path is empty,
    is a bare [/] or holds a blank.  An OpenAPI endpoint has method [ANY],
    confidence [high] and the OpenAPI path as the path of its evidence; a
    README endpoint has one of the HTTP method keywords, confidence [medium]
    and the README path as the path of its evidence. *)
Theorem extract_endpoints_shape
    (readme_path readme_text openapi_path openapi_text : option string) :
  Forall (fun e => openapi_endpoint openapi_path e ∨ readme_endpoint readme_path e)
         (extract_endpoints readme_path readme_text openapi_path openapi_text).
Proof.
  unfold extract_endpoints.
  destruct (openapi_scan_appends openapi_path openapi_text ([], ∅))
    as (more & Hmore & Hall).
  destruct (readme_scan_appends readme_path readme_text
              (openapi_scan openapi_path openapi_text ([], ∅)))
    as (more' & Hmore' & Hall').
  rewrite Hmore', Hmore. cbn [fst app]. apply Forall_app. split.
  - eapply Forall_impl; [exact Hall|]. by left.
  - eapply Forall_impl; [exact Hall'|]. by right.
Qed.

(** ** Dependency inference: what is emitted *)

Lemma seen_target (spec : RepoSpec) (acc : list Dependency * gset (string * string))
    (t : string) :
  infer_inv spec acc → (repo spec, t) ∈ acc.2 ↔ t ∈ dep_target <$> acc.1.
Proof.
  intros (Hseen & _ & _). rewrite Hseen, !list_elem_of_fmap. unfold edge_key.
  split.
  - intros (d & [= ->] & Hd). by exists d.
  - intros (d & -> & Hd). by exists d.
Qed.

Lemma infer_fold_targets (spec : RepoSpec) (path text : option string)
    (envs : list EnvVar) (acc : list Dependency * gset (string * string)) :
  infer_inv spec acc →
  (∀ t, t ∈ dep_target <$> (foldl (infer_step spec path text) acc envs).1
        ↔ t ∈ dep_target <$> acc.1
          ∨ ∃ env, env ∈ envs ∧ names_service spec env t)
  ∧ ∃ more,
      (foldl (infer_step spec path text) acc envs).1 = acc.1 ++ more
      ∧ Forall (fun d => ∃ env, env ∈ envs
                                ∧ endswith "_SERVICE_URL" (env_name env) = true
                                ∧ d = dependency_of path text (env_name env)) more.
Proof.
  revert acc. induction envs as [|env envs IH]; intros acc Hacc.
  { cbn [foldl]. split.
    - intros t. split; [by left|]. intros [?|(env & Henv & _)]; [done|].
      by apply elem_of_nil in Henv.
    - exists []. by rewrite app_nil_r. }
  cbn [foldl].
  destruct (IH (infer_step spec path text acc env) (infer_inv_step _ _ _ _ _ Hacc))
    as [Htargets (more & Hmore & Hall)].
  assert (∀ (P : EnvVar → Prop) (l : list Dependency),
            Forall (fun d => ∃ env, env ∈ envs ∧ P env
                                    ∧ d = dependency_of path text (env_name env)) l →
            Forall (fun d => ∃ env0, env0 ∈ env :: envs ∧ P env0
                                     ∧ d = dependency_of path text (env_name env0)) l)
    as Hweaken.
  { intros P l Hl. eapply Forall_impl; [exact Hl|].
    intros d (env0 & Hin & HP & ->). exists env0. split; [by right | done]. }
  pose proof (seen_target spec acc (dependency_target (env_name env)) Hacc) as Hseen.
  destruct acc as [out seen]. cbn [fst snd] in *.
  unfold infer_step in Htargets, Hmore |- *.
  destruct (endswith "_SERVICE_URL" (env_name env)) eqn:Hends; cbn [negb] in *.
  2:{ split.
      - intros t. rewrite Htargets. cbn [fst]. split.
        + intros [?|(env0 & Hin & Hnames)]; [by left|].
          right. exists env0. split; [by right | done].
        + intros [?|(env0 & [->|Hin]%elem_of_cons & Hnames)]; [by left| |].
          * destruct Hnames as [Hends' _]. congruence.
          * right. by exists env0.
      - exists more. split; [exact Hmore|]. by apply (Hweaken (fun env => _ = true)). }
  case_bool_decide as Hin; cbn [orb] in *.
  { split.
    - intros t. rewrite Htargets. cbn [fst]. split.
      + intros [?|(env0 & Hin0 & Hnames)]; [by left|].
        right. exists env0. split; [by right | done].
      + intros [?|(env0 & [->|Hin0]%elem_of_cons & Hnames)]; [by left| |].
        * left. destruct Hnames as (_ & -> & _). by apply Hseen.
        * right. by exists env0.
    - exists more. split; [exact Hmore|]. by apply (Hweaken (fun env => _ = true)). }
  destruct (String.eqb_spec (dependency_target (env_name env)) (repo spec))
    as [Heq|Hne].
  { split.
    - intros t. rewrite Htargets. cbn [fst]. split.
      + intros [?|(env0 & Hin0 & Hnames)]; [by left|].
        right. exists env0. split; [by right | done].
      + intros [?|(env0 & [->|Hin0]%elem_of_cons & Hnames)]; [by left| |].
        * destruct Hnames as (_ & -> & Hself). done.
        * right. by exists env0.
    - exists more. split; [exact Hmore|]. by apply (Hweaken (fun env => _ = true)). }
  split.
  - intros t. rewrite Htargets. cbn [fst]. rewrite fmap_app, elem_of_app.
    cbn [fmap list_fmap dep_target]. rewrite list_elem_of_singleton. split.
    + intros [[?| ->]|(env0 & Hin0 & Hnames)].
      * by left.
      * right. exists env. split; [by left | done].
      * right. exists env0. split; [by right | done].
    + intros [?|(env0 & [->|Hin0]%elem_of_cons & Hnames)].
      * left. by left.
      * left. right. by destruct Hnames as (_ & -> & _).
      * right. by exists env0.
  - eexists (_ :: more). cbn [fst] in Hmore. rewrite Hmore, <- app_assoc.
    split; [reflexivity|]. constructor.
    + exists env. split; [by left | done].
    + by apply (Hweaken (fun env => _ = true)).
Qed.

(** X11: [infer_depends_on] emits a target exactly when some environment
    variable of the list has a name ending in [_SERVICE_URL] whose target
    differs from the repository's name; every edge it emits is the edge of
    such a variable: type [http], confidence [medium], the evidence looked up
    under the variable's name. *)
Theorem infer_depends_on_complete
    (spec : RepoSpec) (env_vars : list EnvVar) (readme_path readme_text : option string) :
  (∀ target,
     target ∈ dep_target <$> infer_depends_on spec env_vars readme_path readme_text
     ↔ ∃ env, env ∈ env_vars ∧ names_service spec env target)
  ∧ Forall (fun d => ∃ env, env ∈ env_vars
                            ∧ endswith "_SERVICE_URL" (env_name env) = true
                            ∧ d = dependency_of readme_path readme_text (env_name env))
           (infer_depends_on spec env_vars readme_path readme_text).
Proof.
  destruct (infer_fold_targets spec readme_path readme_text env_vars ([], ∅)
              (infer_inv_init spec)) as [Htargets (more & Hmore & Hall)].
  unfold infer_depends_on. split.
  - intros t. rewrite Htargets. cbn [fst fmap list_fmap]. split.
    + intros [Hnil|?]; [by apply elem_of_nil in Hnil | done].
    + by right.
  - rewrite Hmore. exact Hall.
Qed.

(** ** A blank README *)

Lemma blank_strip (t : string) : strip t = "" → blank (Some t) = true.
Proof. unfold blank. by intros ->. Qed.

(** X12: the first README candidate that holds a text is the one used, also
    when that text is blank: then nothing is derived from a README (no
    environment variable, no auth signal, no dependency, no README endpoint),
    whatever the other candidates hold, and when the text is empty no README
    is stored either. *)
Theorem blank_readme_shadows (container_str : json → string) (spec : RepoSpec)
    (repo_node : list (string * json)) (t : string) :
  extract_blob_text repo_node "readme_md" = Some t →
  strip t = "" →
  let e := build_entry container_str spec repo_node in
  env_vars (derived e) = []
  ∧ auth_signals (derived e) = []
  ∧ depends_on (derived e) = []
  ∧ Forall (fun ep => ep_source ep = "openapi") (endpoints (derived e))
  ∧ (t = "" → readme (files e) = None).
Proof.
  intros Hmd Hblank e. subst e. apply blank_strip in Hblank.
  rewrite derived_build_entry, files_build_entry.
  unfold derive, retrieved_files, readme_candidates. rewrite Hmd.
  cbn [first_present].
  destruct (first_present (openapi_candidates repo_node)) as [openapi_path openapi_text].
  destruct (first_present (codeowners_candidates repo_node)).
  destruct (first_present (catalog_candidates repo_node)).
  cbn [env_vars auth_signals depends_on endpoints].
  unfold extract_env_vars, extract_auth_signals. rewrite Hblank.
  repeat (split; [reflexivity|]). split.
  - unfold extract_endpoints, readme_scan. rewrite Hblank.
    destruct (openapi_scan_appends openapi_path openapi_text ([], ∅))
      as (more & -> & Hall).
    cbn [fst app]. eapply Forall_impl; [exact Hall|]. by intros ep [? _].
  - by intros ->.
Qed.

Lemma blank_readme_shadows_witness :
  extract_blob_text shadowed_node "readme_rst"
  = Some "Set BILLING_SERVICE_URL, then call GET /invoices."
  ∧ let e := build_entry (fun _ => "") (MkRepoSpec "acme" "shop") shadowed_node in
    env_vars (derived e) = []
    ∧ auth_signals (derived e) = []
    ∧ depends_on (derived e) = []
    ∧ Forall (fun ep => ep_source ep = "openapi") (endpoints (derived e))
    ∧ ("" = "" → readme (files e) = None).
Proof.
  split; [reflexivity|].
  exact (blank_readme_shadows (fun _ => "") (MkRepoSpec "acme" "shop") shadowed_node ""
           eq_refl eq_refl).
Defined.

(** ** The record of each repository of a batch *)




(** ** The requests of a run *)








(** ** The loader: what it produces, loaded again *)

Lemma strip_fixed (n : string) :
  strip n = n → lstrip_by is_space n = n ∧ rstrip_by is_space n = n.
Proof.
  intros Hn. unfold strip in Hn.
  destruct (lstrip_by_suffix is_space n) as [pre Hpre].
  destruct (rstrip_by_prefix is_space (lstrip_by is_space n)) as [post Hpost].
  assert (String.length pre = 0) as H1.
  { pose proof (f_equal String.length Hpre) as H1.
    pose proof (f_equal String.length Hpost) as H2.
    rewrite length_sapp in H1, H2. rewrite Hn in H2. lia. }
  destruct pre; [|discriminate].
  change (n = lstrip_by is_space n) in Hpre.
  split; [done|]. by rewrite <- Hpre in Hn.
Qed.

(** Two stripped, non-empty texts joined are stripped. *)
Lemma strip_sapp (a b : string) :
  strip a = a → a ≠ "" → strip b = b → b ≠ "" → strip (a +:+ b) = a +:+ b.
Proof.
  intros [Hla _]%strip_fixed Ha [_ Hrb]%strip_fixed Hb. unfold strip.
  destruct a as [|x r]; [done|].
  pose proof (lstrip_by_head is_space _ x r Hla) as Hx.
  rewrite sapp_cons, (lstrip_by_id is_space x _ Hx), <- sapp_cons.
  rewrite rstrip_by_sapp by (by rewrite Hrb). by rewrite Hrb.
Qed.

Lemma startswith_sapp (c : ascii) (a b : string) :
  a ≠ "" → startswith (String c "") (a +:+ b) = startswith (String c "") a.
Proof.
  destruct a as [|x r]; [done|]. intros _. rewrite sapp_cons.
  unfold startswith. cbn [String.prefix].
  destruct (ascii_dec c x); [|done]. by destruct (r +:+ b), r.
Qed.

(** The line written for a clean spec loads as that spec. *)
Lemma load_step_clean (specs : list RepoSpec) (warnings : list string)
    (spec : RepoSpec) :
  clean spec →
  load_step (specs, warnings) (full_name spec) = (specs ++ [spec], warnings).
Proof.
  destruct spec as [o r]. unfold clean, full_name. cbn [owner repo].
  intros (Ho & Hr & Hso & Hsr & Hslash & Hhash).
  assert (strip (o +:+ "/" +:+ r) = o +:+ "/" +:+ r) as Hline.
  { apply strip_sapp; [done | done | | discriminate].
    by apply (strip_sapp "/" r). }
  unfold load_step. rewrite Hline.
  assert (truthy (Some (o +:+ "/" +:+ r)) = true) as ->.
  { apply truthy_Some. by destruct o. }
  rewrite (startswith_sapp "#" o _ Ho), Hhash. cbn [negb orb].
  assert (contains "/" (o +:+ "/" +:+ r) = true) as ->.
  { apply contains_iff. by exists o, r. }
  cbn [negb].
  assert (split_once "/" (o +:+ "/" +:+ r) = Some (o, r)) as ->
    by by apply split_once_Some.
  rewrite Hso, Hsr.
  assert (truthy (Some o) = true) as -> by by apply truthy_Some.
  assert (truthy (Some r) = true) as -> by by apply truthy_Some.
  reflexivity.
Qed.

Lemma load_fold_clean (specs : list RepoSpec) (specs0 : list RepoSpec)
    (warnings : list string) :
  Forall clean specs →
  foldl load_step (specs0, warnings) (full_name <$> specs)
  = (specs0 ++ specs, warnings).
Proof.
  revert specs0. induction specs as [|spec specs IH]; intros specs0 Hall.
  - by rewrite app_nil_r.
  - apply Forall_cons in Hall as [Hspec Hall]. cbn [fmap list_fmap foldl].
    rewrite (load_step_clean _ _ _ Hspec), IH by done.
    by rewrite <- app_assoc.
Qed.

(** What an accepted line yields is clean. *)
Lemma accepts_clean (raw_line : string) (spec : RepoSpec) :
  accepts raw_line spec → clean spec.
Proof.
  intros (o & r & Hconsidered & Hline & Hslash & Ho & Hr & ->).
  unfold clean. cbn [owner repo].
  split; [done|]. split; [done|].
  split; [apply strip_idemp|]. split; [apply strip_idemp|]. split.
  - destruct (contains "/" (strip o)) eqn:E; [|done].
    rewrite <- Hslash. symmetry.
    eapply contains_trans; [exact E | apply contains_strip].
  - unfold considered in Hconsidered.
    apply andb_true_iff in Hconsidered as [_ Hhash%negb_true_iff].
    pose proof (strip_idemp raw_line) as Hidem. rewrite Hline in Hidem, Hhash.
    apply strip_fixed in Hidem as [Hl _].
    destruct o as [|x o']; [done|].
    rewrite sapp_cons in Hl. apply lstrip_by_head in Hl as Hx.
    rewrite (startswith_sapp "#" (String x o') _) in Hhash by done.
    unfold strip. rewrite (lstrip_by_id is_space x o' Hx).
    destruct (rstrip_by_head is_space x o' Hx) as [r' ->].
    revert Hhash. unfold startswith. cbn [String.prefix].
    destruct (ascii_dec "#" x); [|done]. by destruct o', r'.
Qed.

(** X15: every spec the loader yields has a non-blank owner and repo with no
    blank at either end, an owner without [/] that does not start with [#];
    and writing the loaded specs back, one [owner/repo] line each, and
    loading them again yields the same specs and no warning. *)
Theorem load_repo_list_round_trip (lines : list string) :
  let specs := (load_repo_list lines).1 in
  Forall clean specs
  ∧ load_repo_list (full_name <$> specs) = (specs, []).
Proof.
  intros specs.
  assert (Forall clean specs) as Hclean.
  { subst specs. unfold load_repo_list.
    destruct (load_fold lines [] []) as (s & w & -> & _ & Hin).
    cbn [fst app]. apply Forall_forall. intros spec (raw & _ & Hacc)%Hin.
    by eapply accepts_clean. }
  split; [exact Hclean|]. unfold load_repo_list at 1.
  by rewrite (load_fold_clean specs [] [] Hclean).
Qed.

(** ** The environment file loader *)







(** ** The back-off of the client *)

(** One attempt on a reply that is not of an exhausted rate limit: it
    returns without sleeping, or, on the first two attempts, sleeps one second
    more than the attempt's number and goes on. *)
Lemma post_attempts_step (json_loads : string → option json)
    (attempt : nat) (later : list nat) (w : World) :
  Forall (fun o => ¬ exhausted o) (pending w) →
  (∃ res, post_attempts json_loads (attempt :: later) w = (res, (urlopen w).2))
  ∨ (attempt < 2
     ∧ post_attempts json_loads (attempt :: later) w
       = post_attempts json_loads later
           (sleep (1 + Z.of_nat attempt) (urlopen w).2)).
Proof.
  intros Hall. cbn [post_attempts]. unfold urlopen.
  destruct (pending w) as [|[|r|] rest] eqn:Hp; cbn [snd].
  4:{ left. by eexists. }
  - destruct (Nat.ltb_spec attempt 2); [right; by split | left; by eexists].
  - destruct (Nat.ltb_spec attempt 2); [right; by split | left; by eexists].
  - apply Forall_cons in Hall as [Hr _]. cbn [exhausted] in Hr.
    assert ((if (status_code r =? 403)%Z
             then handle_rate_limit (status_code r) (headers r)
                    (MkWorld (now w) rest (slept w))
             else MkWorld (now w) rest (slept w))
            = MkWorld (now w) rest (slept w)) as ->.
    { destruct (Z.eqb_spec (status_code r) 403) as [H403|]; [|done].
      unfold handle_rate_limit. rewrite H403. cbn [Z.eqb Pos.eqb negb].
      rewrite bool_decide_eq_false_2; [done|]. intros Hrem. by apply Hr. }
    assert ((status_code r =? 403)%Z
            && bool_decide (rate_limit_remaining (headers r) = Some "0") = false)
      as ->.
    { destruct (Z.eqb_spec (status_code r) 403) as [H403|]; [|done].
      cbn [andb]. apply bool_decide_eq_false_2. intros Hrem. by apply Hr. }
    destruct ((status_code r =? 200)%Z || (status_code r =? 201)%Z).
    { left. destruct (json_loads (raw r)); by eexists. }
    destruct (status_code r =? 404)%Z; [left; by eexists|].
    destruct (status_code r =? 401)%Z; [left; by eexists|].
    destruct (status_code r =? 403)%Z; [left; by eexists|].
    destruct (500 <=? status_code r)%Z; cbn [andb]; [|left; by eexists].
    destruct (Nat.ltb_spec attempt 2); [right; by split | left; by eexists].
Qed.

Lemma urlopen_pending (w : World) :
  Forall (fun o => ¬ exhausted o) (pending w) →
  Forall (fun o => ¬ exhausted o) (pending (urlopen w).2)
  ∧ now (urlopen w).2 = now w ∧ slept (urlopen w).2 = slept w.
Proof.
  unfold urlopen. destruct (pending w) as [|o rest] eqn:Hp; cbn [snd].
  - by rewrite Hp.
  - intros [_ Hrest]%Forall_cons. done.
Qed.

(** X17: when none of the pending replies is a 403 of an exhausted rate
    limit, one call of [gh_post_json] sleeps for nothing, for one second, or
    for one second and then two: three seconds at most. *)
Theorem gh_post_json_backoff (json_loads : string → option json) (w : World) :
  Forall (fun o => ¬ exhausted o) (pending w) →
  ∃ sleeps,
    sleeps `prefix_of` [1; 2]%Z
    ∧ slept (gh_post_json json_loads w).2 = slept w ++ sleeps
    ∧ now (gh_post_json json_loads w).2 = (now w + total sleeps)%Z.
Proof.
  intros Hall. unfold gh_post_json. cbn [seq].
  destruct (urlopen_pending w Hall) as (Hall1 & Hnow1 & Hslept1).
  destruct (post_attempts_step json_loads 0 [1; 2] w Hall) as [[res ->]|[_ ->]].
  { exists []. cbn [snd]. rewrite Hnow1, Hslept1, app_nil_r.
    split; [by apply prefix_nil|]. split; [done | cbn; lia]. }
  set (w1 := sleep (1 + Z.of_nat 0) (urlopen w).2).
  assert (Forall (fun o => ¬ exhausted o) (pending w1)) as Hw1 by exact Hall1.
  destruct (urlopen_pending w1 Hw1) as (Hall2 & Hnow2 & Hslept2).
  destruct (post_attempts_step json_loads 1 [2] w1 Hw1) as [[res ->]|[_ ->]].
  { exists [1%Z]. cbn [snd]. rewrite Hnow2, Hslept2. subst w1. cbn [sleep now slept].
    rewrite Hnow1, Hslept1.
    split; [by exists [2%Z]|]. split; [done | cbn; lia]. }
  set (w2 := sleep (1 + Z.of_nat 1) (urlopen w1).2).
  assert (Forall (fun o => ¬ exhausted o) (pending w2)) as Hw2 by exact Hall2.
  destruct (urlopen_pending w2 Hw2) as (_ & Hnow3 & Hslept3).
  destruct (post_attempts_step json_loads 2 [] w2 Hw2) as [[res ->]|[Hlt _]]; [|lia].
  exists [1; 2]%Z. cbn [snd]. rewrite Hnow3, Hslept3. subst w2. cbn [sleep now slept].
  rewrite Hnow2, Hslept2. subst w1. cbn [sleep now slept]. rewrite Hnow1, Hslept1.
  split; [done|]. split; [by rewrite <- app_assoc | cbn; lia].
Qed.

Lemma gh_post_json_backoff_witness :
  let w := MkWorld 100 [URLError; Reply (bare_response 502); ok_reply] [] in
  ∃ sleeps,
    sleeps `prefix_of` [1; 2]%Z
    ∧ slept (gh_post_json parse_braces w).2 = [] ++ sleeps
    ∧ now (gh_post_json parse_braces w).2 = (100 + total sleeps)%Z.
Proof.
  intros w. apply (gh_post_json_backoff parse_braces w).
  subst w. cbn [pending].
  apply Forall_cons; split; [by intros []|].
  apply Forall_cons; split; [by intros [[=] _]|].
  apply Forall_cons; split; [by intros [[=] _]|].
  constructor.
Defined.

(** ** The dependency edges of the document *)











(** ** Environment variables: the tokens of a text *)

Lemma upper_word (c : ascii) : is_upper_az c = true → is_word c = true.
Proof. destruct c as [[] [] [] [] [] [] [] []]; vm_compute; congruence. Qed.

Lemma env_tail_word (c : ascii) : env_tail c = true → is_word c = true.
Proof. destruct c as [[] [] [] [] [] [] [] []]; vm_compute; congruence. Qed.

Lemma last_before_None (taken : list ascii) : last_before None taken = last taken.
Proof. unfold last_before. by destruct (last taken). Qed.

(** The character before the end of a run of token characters is a word
    character. *)
Lemma last_before_word (c : ascii) (taken : list ascii) :
  is_word c = true → forallb env_tail taken = true →
  word_at (last_before (Some c) taken) = true.
Proof.
  intros Hc Hall. unfold last_before. destruct (last taken) as [x|] eqn:E; [|done].
  apply last_Some in E as [l ->]. rewrite forallb_app in Hall.
  apply andb_true_iff in Hall as [_ Hx]. cbn [forallb] in Hx.
  apply andb_true_iff in Hx as [Hx _]. by apply env_tail_word.
Qed.

(** Every match [scan] returns was found by [match_at] at a position of the
    text, with the character before that position as the previous one. *)
Lemma scan_at (pat : list item) (rest : list ascii) (prev : option ascii)
    (skip : nat) :
  Forall (fun m => ∃ pre rest' n,
                     rest = pre ++ rest'
                     ∧ match_at pat (last_before prev pre) rest' = Some (n, m))
         (scan pat prev rest skip).
Proof.
  assert (∀ (c : ascii) (prev : option ascii) (rest : list ascii) (ms : list rmatch),
            Forall (fun m => ∃ pre rest' n,
                      rest = pre ++ rest'
                      ∧ match_at pat (last_before (Some c) pre) rest' = Some (n, m)) ms →
            Forall (fun m => ∃ pre rest' n,
                      c :: rest = pre ++ rest'
                      ∧ match_at pat (last_before prev pre) rest' = Some (n, m)) ms)
    as Hshift.
  { intros c prev0 rest0 ms Hms. eapply Forall_impl; [exact Hms|].
    intros m (pre & rest' & n & -> & Hm).
    exists (c :: pre), rest', n. split; [done|].
    by rewrite <- (last_before_cons prev0). }
  revert prev skip. induction rest as [|c rest IH]; intros prev skip.
  - destruct skip; cbn [scan]; [|constructor].
    destruct (match_at pat prev []) as [[n m]|] eqn:E; [|constructor].
    constructor; [|constructor]. by exists [], [], n.
  - destruct skip; cbn [scan]; [|apply Hshift, IH].
    destruct (match_at pat prev (c :: rest)) as [[n m]|] eqn:E; [|apply Hshift, IH].
    constructor; [|apply Hshift, IH]. by exists [], (c :: rest), n.
Qed.

(** A match of the pattern is a token that stands between characters that
    are not word characters. *)
Lemma env_match_token (prev : option ascii) (rest : list ascii) (n : nat) (m : rmatch) :
  match_at env_pattern prev rest = Some (n, m) →
  env_token (whole m)
  ∧ word_at prev = false
  ∧ n = length (list_ascii_of_string (whole m))
  ∧ ∃ post, rest = list_ascii_of_string (whole m) ++ post
            ∧ word_at (head post) = false.
Proof.
  unfold match_at, env_pattern. cbn [mseq].
  destruct (at_word_boundary prev rest) eqn:Hb; [|discriminate].
  destruct rest as [|c rest]; [discriminate|].
  destruct (is_upper_az c) eqn:Hc; [|discriminate].
  destruct (greedy env_tail 0 None _ (Some c) rest (push c mstart)) as [st|] eqn:Hg;
    [|discriminate].
  intros [= <- <-]. apply greedy_inv in Hg as (taken & rest' & -> & Hall & _ & Hk).
  destruct (at_word_boundary _ rest') eqn:Hb'; [|discriminate].
  injection Hk as <-.
  pose proof (upper_word c Hc) as Hword.
  rewrite consumed_pushes. cbn [push consumed mstart whole].
  rewrite rev_app_distr, rev_involutive. cbn [rev app string_of_list_ascii].
  cbn [env_token list_ascii_of_string].
  rewrite !list_ascii_of_string_of_list_ascii.
  split; [|split; [|split]].
  - done.
  - unfold at_word_boundary in Hb. cbn [head word_at] in Hb. rewrite Hword in Hb.
    by destruct (word_at prev).
  - rewrite length_app, length_rev. cbn [length]. lia.
  - exists rest'. split; [done|].
    unfold at_word_boundary in Hb'. rewrite (last_before_word c taken Hword Hall) in Hb'.
    by destruct (word_at (head rest')).
Qed.

(** A greedy repetition takes the whole run of the class when the pattern
    goes on from its end. *)
Lemma greedy_run {R : Type} (p : ascii → bool)
    (k : option ascii → list ascii → mstate → option R)
    (taken post : list ascii) (prev : option ascii) (st : mstate) (r : R) :
  forallb p taken = true →
  match post with
  | c :: _ => p c = false
  | [] => True
  end →
  k (last_before prev taken) post (pushes taken st) = Some r →
  greedy p 0 None k prev (taken ++ post) st = Some r.
Proof.
  revert prev st. induction taken as [|a taken IH]; intros prev st Hall Hpost Hk.
  - cbn [app]. destruct post as [|c post]; cbn [greedy hi_pred]; [exact Hk|].
    rewrite Hpost. exact Hk.
  - cbn [forallb] in Hall. apply andb_true_iff in Hall as [Ha Hall].
    cbn [app greedy hi_pred Nat.pred]. rewrite Ha.
    rewrite (IH (Some a) (push a st) Hall Hpost); [done|].
    by rewrite (last_before_cons prev).
Qed.

(** At a token that stands between characters that are not word characters
    the pattern matches, and it matches the token. *)
Lemma env_match_at (prev : option ascii) (c : ascii) (tail post : list ascii) :
  word_at prev = false → is_upper_az c = true → forallb env_tail tail = true →
  word_at (head post) = false →
  match_at env_pattern prev (c :: tail ++ post)
  = Some (S (length tail), RMatch (string_of_list_ascii (c :: tail)) []).
Proof.
  intros Hprev Hc Hall Hpost. pose proof (upper_word c Hc) as Hword.
  unfold match_at, env_pattern. cbn [mseq].
  unfold at_word_boundary at 1. cbn [head word_at]. rewrite Hprev, Hword, Hc.
  cbn [xorb].
  rewrite (greedy_run env_tail _ tail post (Some c) (push c mstart)
             (pushes tail (push c mstart)) Hall).
  - rewrite consumed_pushes, groups_pushes. cbn [push consumed groups mstart].
    rewrite length_app, length_rev, rev_app_distr, rev_involutive.
    cbn [length rev app]. f_equal. f_equal. lia.
  - destruct post as [|d post]; [done|]. cbn [head word_at] in Hpost.
    destruct (env_tail d) eqn:Hd; [|done]. by rewrite (env_tail_word d Hd) in Hpost.
  - cbn [mseq]. unfold at_word_boundary.
    by rewrite (last_before_word c tail Hword Hall), Hpost.
Qed.

(** The scan finds every token that stands between characters that are not
    word characters: no match before it reaches into it. *)
Lemma scan_finds (pre : list ascii) (c : ascii) (tail post : list ascii) :
  is_upper_az c = true → forallb env_tail tail = true →
  word_at (head post) = false →
  ∀ (prev : option ascii) (skip : nat),
    skip ≤ length pre →
    word_at (last_before prev pre) = false →
    RMatch (string_of_list_ascii (c :: tail)) []
    ∈ scan env_pattern prev (pre ++ c :: tail ++ post) skip.
Proof.
  intros Hc Hall Hpost. induction pre as [|a pre IH]; intros prev skip Hskip Hprev.
  - destruct skip; [|cbn in Hskip; lia]. cbn [app scan].
    rewrite (env_match_at prev c tail post Hprev Hc Hall Hpost). by left.
  - rewrite <- (last_before_cons prev) in Hprev.
    destruct skip as [|skip]; cbn [app scan].
    2:{ apply IH; [cbn [length] in Hskip; lia | done]. }
    destruct (match_at env_pattern prev (a :: pre ++ c :: tail ++ post))
      as [[n m]|] eqn:E.
    2:{ apply IH; [lia | done]. }
    right. apply IH; [|done].
    apply env_match_token in E as (Htoken & _ & -> & post' & Hrest & _).
    change (a :: pre ++ c :: tail ++ post) with ((a :: pre) ++ c :: tail ++ post)
      in Hrest.
    apply app_eq_inv in Hrest as [(k & Hpre & _)|(k & Hw & _)].
    + apply (f_equal length) in Hpre. rewrite length_app in Hpre.
      cbn [length] in Hpre. lia.
    + exfalso.
      assert (∃ x, last_before (Some a) pre = Some x ∧ x ∈ a :: pre) as (x & Hx & Hin).
      { unfold last_before. destruct (last pre) as [x|] eqn:El.
        - exists x. split; [done|]. right. apply last_Some in El as [l ->].
          apply elem_of_app. right. by left.
        - exists a. split; [done | by left]. }
      rewrite Hx in Hprev. cbn [word_at] in Hprev.
      assert (Forall (fun y => is_word y = true) (list_ascii_of_string (whole m)))
        as Hwords.
      { destruct (whole m) as [|y w]; [done|]. destruct Htoken as [Hy Hw'].
        cbn [list_ascii_of_string]. constructor; [by apply upper_word|].
        apply Forall_forall. intros z Hz.
        apply env_tail_word. rewrite forallb_forall in Hw'.
        apply Hw'. by apply list_elem_of_In. }
      rewrite Hw in Hwords. apply Forall_app in Hwords as [Hwords _].
      rewrite Forall_forall in Hwords. by rewrite (Hwords x Hin) in Hprev.
Qed.

(** The tokens [re.findall] returns are the tokens of the text. *)
Lemma findall_env_iff (text name : string) :
  name ∈ findall env_pattern text ↔ token_of text name.
Proof.
  unfold findall, finditer, token_of. split.
  - intros (m & -> & Hm)%list_elem_of_fmap.
    pose proof (scan_at env_pattern (list_ascii_of_string text) None 0) as Hall.
    eapply Forall_forall in Hall as (pre & rest & n & Htext & Hat); [|exact Hm].
    apply env_match_token in Hat as (Htoken & Hprev & _ & post & -> & Hpost).
    split; [done|].
    exists (string_of_list_ascii pre), (string_of_list_ascii post).
    rewrite !list_ascii_of_string_of_list_ascii.
    rewrite last_before_None in Hprev. split; [|by split].
    rewrite <- (string_of_list_ascii_of_string text), Htext.
    by rewrite !string_of_chars_app, string_of_list_ascii_of_string.
  - intros (Htoken & pre & post & -> & Hpre & Hpost).
    destruct name as [|c tail]; [done|]. destruct Htoken as [Hc Hall].
    apply list_elem_of_fmap. exists (RMatch (String c tail) []). split; [done|].
    rewrite !chars_sapp. cbn [list_ascii_of_string].
    rewrite <- (string_of_list_ascii_of_string tail) at 1.
    apply (scan_finds (list_ascii_of_string pre) c (list_ascii_of_string tail)
             (list_ascii_of_string post) Hc Hall Hpost None 0); [lia|].
    by rewrite last_before_None.
Qed.

(** C2: the names [extract_env_vars] returns are in lexical order without
    repetition; they are exactly the tokens of the text (an upper-case letter
    followed by upper-case letters, digits and underscores, standing between
    characters that are not word characters) that are [PORT] or end in
    [_SERVICE_URL], [_URL] or [_TOKEN]; so two texts with the same tokens, in
    whatever order and number, give the same list. *)
Theorem extract_env_vars_sorted_set (readme_path : option string) (text : string) :
  let names := env_name <$> extract_env_vars readme_path (Some text) in
  StronglySorted String.le names
  ∧ NoDup names
  ∧ (∀ name,
       name ∈ names
       ↔ token_of text name
         ∧ (name = "PORT" ∨ endswith "_SERVICE_URL" name = true
            ∨ endswith "_URL" name = true ∨ endswith "_TOKEN" name = true))
  ∧ (∀ path' text',
       (∀ token, token_of text' token ↔ token_of text token) →
       env_name <$> extract_env_vars path' (Some text') = names).
Proof.
  intros names. subst names. split; [|split; [|split]].
  - rewrite extract_env_vars_names. apply StronglySorted_merge_sort; apply _.
  - rewrite extract_env_vars_names. unfold sorted.
    rewrite merge_sort_Permutation. apply NoDup_elements.
  - intros name. by rewrite elem_of_env_names, keep_env_spec, findall_env_iff.
  - intros path' text' Hsame. rewrite !extract_env_vars_names.
    assert ((list_to_set (findall env_pattern text') : gset string)
            = list_to_set (findall env_pattern text)) as ->; [|reflexivity].
    apply set_eq. intros token. by rewrite !elem_of_list_to_set, !findall_env_iff.
Qed.

Lemma extract_env_vars_sorted_set_witness :
  env_name <$> extract_env_vars (Some "README.md") (Some tokens_readme)
  = ["API_TOKEN"; "AUTH_SERVICE_URL"; "PORT"]
  ∧ token_of tokens_readme "PORT"
  ∧ ¬ token_of tokens_readme "BAD_URL"
  ∧ token_of tokens_readme "HOME".
Proof.
  assert (token_of tokens_readme "HOME") as Hhome.
  { split; [by vm_compute|].
    exists "Set PORT=8080 and AUTH_SERVICE_URL; API_TOKEN, xBAD_URL, DB_URL2, ",
      ", API_TOKEN.".
    by vm_compute. }
  assert (env_name <$> extract_env_vars (Some "README.md") (Some tokens_readme)
          = ["API_TOKEN"; "AUTH_SERVICE_URL"; "PORT"]) as Hnames by (by vm_compute).
  destruct (extract_env_vars_sorted_set (Some "README.md") tokens_readme)
    as (_ & _ & Hin & _).
  pose proof (proj1 (Hin "PORT")) as Hport.
  pose proof (proj2 (Hin "BAD_URL")) as Hbad.
  clear Hin. cbv zeta in Hport, Hbad.
  rewrite Hnames in Hport. rewrite Hnames in Hbad.
  split; [exact Hnames|]. split; [|split; [|exact Hhome]].
  - apply Hport. right. right. left.
  - intros Htoken.
    assert ("BAD_URL" ∈ ["API_TOKEN"; "AUTH_SERVICE_URL"; "PORT"]) as Hel.
    { apply Hbad. split; [exact Htoken|]. right. right. left. reflexivity. }
    clear Hport Hbad Hnames Hhome Htoken.
    rewrite !elem_of_cons, elem_of_nil in Hel.
    destruct Hel as [Hel|[Hel|[Hel|[]]]]; discriminate Hel.
Defined.
